(** * MIDI Piano: a shallow embedding of [src/App.tsx]

    The view keeps three pieces of React state (connection status, the
    map of currently pressed notes, the names of the MIDI inputs) and
    mutates them from a handful of callbacks.  Each callback is embedded
    as a function on an explicit state; the browser (promise settlement,
    device changes, message delivery, clicks) is an event loop over them.

    Numbers are [Z]: every number the code handles is an element of a
    [Uint8Array] or is computed from one by integer arithmetic. *)

From Stdlib Require Import ZArith List String Ascii Bool Lia.
From Stdlib Require Import Sorted Permutation DecimalString.
Import ListNotations.
Local Open Scope Z_scope.

(** ** JavaScript values used by the view *)

(** [Map<number, number>].  A JavaScript [Map] iterates in insertion
    order, so the embedding is an association list in that order; its
    representation invariant is [wf]: no key occurs twice. *)
Module JSMap.

Definition t : Type := list (Z * Z).

Definition empty : t := [].

(** [m.get(k)] *)
Fixpoint get (m : t) (k : Z) : option Z :=
  match m with
  | [] => None
  | (k', v') :: m' => if k' =? k then Some v' else get m' k
  end.

(** [m.has(k)] *)
Definition has (m : t) (k : Z) : bool :=
  match get m k with Some _ => true | None => false end.

(** [m.set(k, v)]: an existing key keeps its place and takes the new
    value, a new key goes to the end. *)
Fixpoint set (m : t) (k v : Z) : t :=
  match m with
  | [] => [(k, v)]
  | (k', v') :: m' =>
      if k' =? k then (k, v) :: m' else (k', v') :: set m' k v
  end.

(** [m.delete(k)] *)
Definition delete (m : t) (k : Z) : t :=
  filter (fun e => negb (fst e =? k)) m.

(** [m.entries()], [m.keys()], [m.values()] in iteration order. *)
Definition entries (m : t) : list (Z * Z) := m.
Definition keys (m : t) : list Z := map fst m.
Definition values (m : t) : list Z := map snd m.

Definition wf (m : t) : Prop := NoDup (keys m).

(** The entries of [m] whose key is not [k], in iteration order. *)
Definition others (m : t) (k : Z) : list (Z * Z) :=
  filter (fun e => negb (fst e =? k)) (entries m).

End JSMap.

(** Arrays: indexing, [Array.from] and [Array.prototype.sort]. *)
Module JSArray.

(** [a[i]] for an integer [i]; [None] is [undefined]. *)
Definition index {A : Type} (a : list A) (i : Z) : option A :=
  if i <? 0 then None else nth_error a (Z.to_nat i).

Definition from {A : Type} (l : list A) : list A := l.

(** [sort(cmp)] is a stable sort: [a] stays before [b] unless
    [cmp a b > 0].  Insertion from the right is such a sort. *)
Fixpoint insert {A : Type} (cmp : A -> A -> Z) (x : A) (l : list A)
  : list A :=
  match l with
  | [] => [x]
  | y :: l' => if cmp x y <=? 0 then x :: l else y :: insert cmp x l'
  end.

Definition sort {A : Type} (cmp : A -> A -> Z) (l : list A) : list A :=
  fold_right (insert cmp) [] l.

End JSArray.

(** [`${n}`] for an integer [n]. *)
Definition Number_toString (n : Z) : string :=
  NilZero.string_of_int (Z.to_int n).

(** [`${x}`] for a string that may be [undefined]. *)
Definition String_of (x : option string) : string :=
  match x with Some s => s | None => "undefined"%string end.

(** ** Note names (lines 4-10) *)

Definition NOTE_NAMES : list string :=
  ["C"; "C#"; "D"; "D#"; "E"; "F"; "F#"; "G"; "G#"; "A"; "A#"; "B"]%string.

(** [%] is the truncating remainder, [Math.floor(note / 12)] the floor
    quotient. *)
Definition midiNoteToName (note : Z) : string :=
  let name := JSArray.index NOTE_NAMES (Z.rem note 12) in
  let octave := note / 12 - 1 in
  (String_of name ++ Number_toString octave)%string.

(** The formatter in the words of the specification: pitch class
    [note mod 12] looked up in the twelve-entry table, followed by the
    octave [floor(note/12) - 1]. *)
Definition midiNoteToName_spec (note : Z) : string :=
  (nth (Z.to_nat (note mod 12)) NOTE_NAMES ""
     ++ Number_toString (note / 12 - 1))%string.

(** ** The message handler (lines 19-38) *)

Inductive MIDIStatus : Type :=
  idle | requesting | ready | unsupported | denied | error.

(** [event.data] is a [Uint8Array] or [null]. *)
Record MIDIMessageEvent : Type := { data : option (list Z) }.

(** A message whose [data] holds exactly the bytes [bytes]. *)
Definition message (bytes : list Z) : MIDIMessageEvent :=
  {| data := Some bytes |}.

(** The handler as the function it applies to the pressed-notes state:
    the two updaters passed to [setPressedNotes], or no update. *)
Definition handleMIDIMessage (event : MIDIMessageEvent) (prev : JSMap.t)
  : JSMap.t :=
  match data event with
  | None => prev
  | Some d =>
      if Z.of_nat (List.length d) <? 3 then prev
      else
        let status := nth 0 d 0 in
        let note := nth 1 d 0 in
        let velocity := nth 2 d 0 in
        let isNoteOn := (status =? 0x90) || (status =? 0x99) in
        let isNoteOff := (status =? 0x80) || (status =? 0x89) in
        let isNoteOnWithZeroVel :=
          (Z.land status 0xf0 =? 0x90) && (velocity =? 0) in
        if isNoteOn && (velocity >? 0) then JSMap.set prev note velocity
        else if isNoteOff || isNoteOnWithZeroVel then JSMap.delete prev note
        else prev
  end.

(** Byte [i] of the message, when it has one. *)
Definition byte (event : MIDIMessageEvent) (i : nat) : option Z :=
  match data event with
  | Some d => nth_error d i
  | None => None
  end.

(** The message has fewer than three bytes (or no data at all). *)
Definition short (event : MIDIMessageEvent) : Prop :=
  match data event with
  | Some d => (List.length d < 3)%nat
  | None => True
  end.

(** The status bytes named by [isNoteOn] and [isNoteOff]: note-on and
    note-off on channel 0 or 9. *)
Definition named_status (status : Z) : bool :=
  (status =? 0x90) || (status =? 0x99)
  || (status =? 0x80) || (status =? 0x89).

(** A release: an explicit note-off on channel 0 or 9, or a note-on
    status byte (high nibble 9, any channel) with velocity 0. *)
Definition release (status velocity : Z) : Prop :=
  (status = 0x80 \/ status = 0x89)
  \/ (Z.land status 0xf0 = 0x90 /\ velocity = 0).

(** The handler run over a sequence of messages, oldest first. *)
Definition handle_all (events : list MIDIMessageEvent) (m : JSMap.t)
  : JSMap.t :=
  fold_left (fun acc ev => handleMIDIMessage ev acc) events m.

(** ** The rendered list (line 76) *)

(** The comparator [(a, b) => a[0] - b[0]]. *)
Definition by_note (a b : Z * Z) : Z := fst a - fst b.

Definition pressedList (pressedNotes : JSMap.t) : list (Z * Z) :=
  JSArray.sort by_note (JSArray.from (JSMap.entries pressedNotes)).

(** Orders on entries by note number. *)
Definition note_le (a b : Z * Z) : Prop := fst a <= fst b.
Definition note_lt (a b : Z * Z) : Prop := fst a < fst b.

(** ** The platform: errors, inputs, access objects *)

Module JSError.
(** Only [err.name] is inspected. *)
Record t : Type := { name : string }.
End JSError.

(** What an [onmidimessage] slot can hold.  [handleMIDIMessage] is built
    by [useCallback] with no dependencies, so it is one reference for the
    whole life of the view. *)
Inductive Listener : Type :=
| TheHandler
| OtherListener (tag : nat).

Definition Listener_eqb (a b : Listener) : bool :=
  match a, b with
  | TheHandler, TheHandler => true
  | OtherListener x, OtherListener y => Nat.eqb x y
  | _, _ => false
  end.

Module MIDIInput.
Record t : Type := {
  name : option string;
  id : option string;
  onmidimessage : option Listener
}.

(** [input.onmidimessage = handleMIDIMessage] *)
Definition attach (input : t) : t :=
  {| name := name input; id := id input;
     onmidimessage := Some TheHandler |}.

(** [input.onmidimessage !== handleMIDIMessage] *)
Definition lacks_handler (input : t) : bool :=
  match onmidimessage input with
  | Some l => negb (Listener_eqb l TheHandler)
  | None => true
  end.
End MIDIInput.

(** [input.name ?? input.id ?? 'MIDI Input'] *)
Definition inputLabel (input : MIDIInput.t) : string :=
  match MIDIInput.name input with
  | Some n => n
  | None =>
      match MIDIInput.id input with
      | Some i => i
      | None => "MIDI Input"%string
      end
  end.

(** The effect of one [forEach] over the inputs: the names pushed, the
    inputs as they are left, and how many assignments to
    [onmidimessage] were executed. *)
Record Visit : Type := {
  names : list string;
  visited : list MIDIInput.t;
  assignments : nat
}.

Definition no_visit : Visit :=
  {| names := []; visited := []; assignments := 0 |}.

(** Body of the loop in the fulfilment callback (lines 54-57). *)
Definition attach_body (acc : Visit) (input : MIDIInput.t) : Visit :=
  {| names := names acc ++ [inputLabel input];
     visited := visited acc ++ [MIDIInput.attach input];
     assignments := S (assignments acc) |}.

(** Body of the loop in [access.onstatechange] (lines 61-66). *)
Definition statechange_body (acc : Visit) (input : MIDIInput.t) : Visit :=
  let newNames := names acc ++ [inputLabel input] in
  if MIDIInput.lacks_handler input then
    {| names := newNames;
       visited := visited acc ++ [MIDIInput.attach input];
       assignments := S (assignments acc) |}
  else
    {| names := newNames;
       visited := visited acc ++ [input];
       assignments := assignments acc |}.

Definition attach_all (inputs : list MIDIInput.t) : Visit :=
  fold_left attach_body inputs no_visit.

Definition onstatechange (inputs : list MIDIInput.t) : Visit :=
  fold_left statechange_body inputs no_visit.

(** ** The view and its callbacks *)

Record Navigator : Type := {
  (** whether [navigator.requestMIDIAccess] is there *)
  requestMIDIAccess : bool
}.

(** The global scope: [navigator] may be undeclared. *)
Record Env : Type := { navigator : option Navigator }.

Record MIDIAccess : Type := {
  inputs : list MIDIInput.t;
  (** whether [access.onstatechange] holds the closure of line 59 *)
  subscribed : bool
}.

Record App : Type := {
  midiStatus : MIDIStatus;
  pressedNotes : JSMap.t;
  inputNames : list string;
  (** a [requestMIDIAccess] promise that has not settled yet *)
  pending : bool;
  (** the access object the view holds once the promise is fulfilled *)
  access : option MIDIAccess
}.

Definition setMidiStatus (s : MIDIStatus) (a : App) : App :=
  {| midiStatus := s; pressedNotes := pressedNotes a;
     inputNames := inputNames a; pending := pending a;
     access := access a |}.

Definition setPressedNotes (f : JSMap.t -> JSMap.t) (a : App) : App :=
  {| midiStatus := midiStatus a; pressedNotes := f (pressedNotes a);
     inputNames := inputNames a; pending := pending a;
     access := access a |}.

Definition setInputNames (ns : list string) (a : App) : App :=
  {| midiStatus := midiStatus a; pressedNotes := pressedNotes a;
     inputNames := ns; pending := pending a; access := access a |}.

Definition setPending (p : bool) (a : App) : App :=
  {| midiStatus := midiStatus a; pressedNotes := pressedNotes a;
     inputNames := inputNames a; pending := p; access := access a |}.

Definition setAccess (x : option MIDIAccess) (a : App) : App :=
  {| midiStatus := midiStatus a; pressedNotes := pressedNotes a;
     inputNames := inputNames a; pending := pending a; access := x |}.

(** The three [useState] initial values (lines 15-17). *)
Definition initial : App :=
  {| midiStatus := idle; pressedNotes := JSMap.empty; inputNames := [];
     pending := false; access := None |}.

(** The mount effect (lines 40-44). *)
Definition mountEffect (env : Env) (a : App) : App :=
  match navigator env with
  | Some nav =>
      if negb (requestMIDIAccess nav) then setMidiStatus unsupported a
      else a
  | None => a
  end.

Definition startup (env : Env) : App := mountEffect env initial.

Inductive Completion (A : Type) : Type :=
| Normal (a : A)
| Throw (e : JSError.t).
Arguments Normal {A} a.
Arguments Throw {A} e.

(** [connectMIDI] up to the point where the promise is created (lines
    46-50): reading an undeclared [navigator] throws. *)
Definition connectMIDI (env : Env) (a : App) : Completion App :=
  match navigator env with
  | None => Throw {| JSError.name := "ReferenceError" |}
  | Some nav =>
      if negb (requestMIDIAccess nav) then Normal a
      else Normal (setPending true (setMidiStatus requesting a))
  end.

(** The [then] callback (lines 51-69). *)
Definition onFulfilled (ins : list MIDIInput.t) (a : App) : App :=
  let a1 := setMidiStatus ready a in
  let v := attach_all ins in
  let a2 := setInputNames (names v) a1 in
  setAccess (Some {| inputs := visited v; subscribed := true |}) a2.

(** The [catch] callback (lines 70-73); [console.error] has no effect
    on the state. *)
Definition onRejected (err : JSError.t) (a : App) : App :=
  setMidiStatus
    (if String.eqb (JSError.name err) "SecurityError" then denied
     else error) a.

(** The closure of lines 59-68 run on the current inputs of the access
    object. *)
Definition onStateChange (acc : MIDIAccess) (a : App) : App :=
  let v := onstatechange (inputs acc) in
  setAccess (Some {| inputs := visited v; subscribed := subscribed acc |})
            (setInputNames (names v) a).

(** Line 90: the connect button is in the rendered tree. *)
Definition connectOffered (a : App) : bool :=
  match midiStatus a with idle => true | _ => false end.

(** Line 99: the empty-state paragraph replaces the list. *)
Definition emptyStateShown (a : App) : bool :=
  match pressedList (pressedNotes a) with [] => true | _ => false end.

(** ** The event loop *)

Inductive Event : Type :=
| ClickConnect
| AccessGranted (ins : list MIDIInput.t)
| AccessRejected (err : JSError.t)
| DeviceListChanged (ins : list MIDIInput.t)
| MIDIMessage (port : nat) (event : MIDIMessageEvent).

(** One turn of the loop.  An event that cannot happen in the current
    state (a click on a button that is not rendered, the settlement of a
    promise that is not pending, a message on a port that does not carry
    the handler) leaves the state as it is; an exception thrown by a
    click handler is reported by the browser and changes nothing. *)
Definition step (env : Env) (a : App) (e : Event) : App :=
  match e with
  | ClickConnect =>
      if connectOffered a then
        match connectMIDI env a with
        | Normal a' => a'
        | Throw _ => a
        end
      else a
  | AccessGranted ins =>
      if pending a then onFulfilled ins (setPending false a) else a
  | AccessRejected err =>
      if pending a then onRejected err (setPending false a) else a
  | DeviceListChanged ins =>
      match access a with
      | Some acc =>
          let acc' := {| inputs := ins; subscribed := subscribed acc |} in
          if subscribed acc then onStateChange acc' a
          else setAccess (Some acc') a
      | None => a
      end
  | MIDIMessage port event =>
      match access a with
      | Some acc =>
          match nth_error (inputs acc) port with
          | Some input =>
              if MIDIInput.lacks_handler input then a
              else setPressedNotes (handleMIDIMessage event) a
          | None => a
          end
      | None => a
      end
  end.

Definition run (env : Env) (events : list Event) (a : App) : App :=
  fold_left (step env) events a.

(** ** The rendered view (lines 78-114) *)

Definition MIDIStatus_eqb (x y : MIDIStatus) : bool :=
  match x, y with
  | idle, idle | requesting, requesting | ready, ready
  | unsupported, unsupported | denied, denied | error, error => true
  | _, _ => false
  end.

(** [{cond && 'text'}]: the text when [cond] holds, nothing otherwise. *)
Definition when (cond : bool) (text : string) : string :=
  if cond then text else ""%string.

(** [names.join(', ')] *)
Definition join (sep : string) (l : list string) : string :=
  String.concat sep l.

(** The text of the status line (lines 82-89): six guarded fragments,
    one after the other. *)
Definition statusBanner (a : App) : string :=
  let midiStatus := midiStatus a in
  let inputNames := inputNames a in
  (when (MIDIStatus_eqb midiStatus idle) "Нажмите «Подключить MIDI»"
   ++ when (MIDIStatus_eqb midiStatus requesting) "Подключение…"
   ++ when (MIDIStatus_eqb midiStatus ready)
        (if Nat.eqb (List.length inputNames) 0
         then "Готово · устройств не найдено"
         else "Готово · " ++ join ", " inputNames)
   ++ when (MIDIStatus_eqb midiStatus unsupported)
        "Web MIDI не поддерживается (нужен Chrome/Edge)"
   ++ when (MIDIStatus_eqb midiStatus denied) "Доступ к MIDI запрещён"
   ++ when (MIDIStatus_eqb midiStatus error) "Ошибка подключения")%string.

(** One [<li>] of the list (lines 104-108): its React key and the text
    of its three spans. *)
Record NoteItem : Type := {
  key : Z;
  note_name : string;
  note_midi : string;
  note_velocity : string
}.

Definition noteItem (entry : Z * Z) : NoteItem :=
  let '(note, velocity) := entry in
  {| key := note;
     note_name := midiNoteToName note;
     note_midi := ("#" ++ Number_toString note)%string;
     note_velocity := ("vel " ++ Number_toString velocity)%string |}.

(** The notes section (lines 99-111): the empty-state paragraph or the
    list. *)
Inductive NotesSection : Type :=
| NotesEmpty (text : string)
| NotesList (items : list NoteItem).

Definition notesSection (a : App) : NotesSection :=
  let pressedList := pressedList (pressedNotes a) in
  if Nat.eqb (List.length pressedList) 0
  then NotesEmpty "Нажимайте клавиши на MIDI-клавиатуре"
  else NotesList (map noteItem pressedList).

(** ** Predicates used in the statements *)

(** [event] is a key press of [note] with [velocity]: a note-on on
    channel 0 or 9 with a positive velocity. *)
Definition press (event : MIDIMessageEvent) (note velocity : Z) : Prop :=
  exists status rest,
    event = message (status :: note :: velocity :: rest)
    /\ (status = 0x90 \/ status = 0x99) /\ 0 < velocity.

(** The names shown are those of the inputs the view holds, and every
    one of these inputs carries the handler. *)
Definition synced (a : App) : Prop :=
  match access a with
  | Some acc =>
      inputNames a = map inputLabel (inputs acc)
      /\ Forall (fun i => MIDIInput.onmidimessage i = Some TheHandler)
                (inputs acc)
  | None => inputNames a = []
  end.

(** The states in which the status can still change. *)
Definition undecided (s : MIDIStatus) : bool :=
  match s with idle | requesting => true | _ => false end.

(** The platform MIDI API is absent: [navigator] is not declared, or it
    has no [requestMIDIAccess]. *)
Definition api_absent (env : Env) : Prop :=
  match navigator env with
  | Some nav => requestMIDIAccess nav = false
  | None => True
  end.

(** The number of turns of the loop, along [events] from [a], at which
    a request becomes pending: [connectMIDI] has reached line 50. *)
Fixpoint requests_started (env : Env) (events : list Event) (a : App)
  : nat :=
  match events with
  | [] => 0%nat
  | e :: rest =>
      let a' := step env a e in
      ((if negb (pending a) && pending a' then 1 else 0)
       + requests_started env rest a')%nat
  end.

(** What holds of every state the loop reaches from [startup]. *)
Definition reachable_inv (a : App) : Prop :=
  (pending a = true -> access a = None /\ midiStatus a = requesting)
  /\ (access a = None -> pressedNotes a = JSMap.empty)
  /\ (midiStatus a = idle -> access a = None /\ pending a = false)
  /\ (forall acc, access a = Some acc ->
                  subscribed acc = true /\ midiStatus a = ready).

(** No button, no promise in flight, no access object. *)
Definition settled (a : App) : Prop :=
  connectOffered a = false /\ pending a = false /\ access a = None.

(** The reading of the state-change callback as a loop that assigns the
    handler once per input. *)
Definition assigns_every_input (ins : list MIDIInput.t) : Prop :=
  assignments (onstatechange ins) = List.length ins.

(** * Properties *)

(** ** Facts about maps *)

Module JSMapFacts.
Import JSMap.

Lemma get_set_same (m : t) (k v : Z) : get (set m k v) k = Some v.
Proof.
  induction m as [|[k' v'] m IH]; simpl.
  - now rewrite Z.eqb_refl.
  - destruct (k' =? k) eqn:E; simpl.
    + now rewrite Z.eqb_refl.
    + now rewrite E.
Qed.

Lemma get_set_other (m : t) (k v k0 : Z) :
  k0 <> k -> get (set m k v) k0 = get m k0.
Proof.
  intros Hne.
  induction m as [|[k' v'] m IH]; simpl.
  - destruct (k =? k0) eqn:E; [apply Z.eqb_eq in E; lia | reflexivity].
  - destruct (k' =? k) eqn:E; simpl.
    + apply Z.eqb_eq in E; subst k'.
      destruct (k =? k0) eqn:E0; [apply Z.eqb_eq in E0; lia | reflexivity].
    + now rewrite IH.
Qed.

Lemma get_delete_same (m : t) (k : Z) : get (delete m k) k = None.
Proof.
  unfold delete.
  induction m as [|[k' v'] m IH]; simpl; [reflexivity|].
  destruct (k' =? k) eqn:E; simpl; [exact IH | now rewrite E].
Qed.

Lemma get_None_notin (m : t) (k : Z) : get m k = None <-> ~ In k (keys m).
Proof.
  unfold keys.
  induction m as [|[k' v'] m IH]; simpl.
  - tauto.
  - destruct (k' =? k) eqn:E.
    + apply Z.eqb_eq in E. split; [discriminate | tauto].
    + apply Z.eqb_neq in E. rewrite IH. tauto.
Qed.

Lemma get_Some_In (m : t) (k v : Z) : get m k = Some v -> In (k, v) m.
Proof.
  induction m as [|[k' v'] m IH]; simpl; [discriminate|].
  destruct (k' =? k) eqn:E.
  - apply Z.eqb_eq in E. intros [= ->]. subst. now left.
  - intros H. right. now apply IH.
Qed.

Lemma delete_absent (m : t) (k : Z) : get m k = None -> delete m k = m.
Proof.
  unfold delete.
  induction m as [|[k' v'] m IH]; simpl; [reflexivity|].
  destruct (k' =? k) eqn:E; simpl; [discriminate|].
  intros H. now rewrite IH.
Qed.

Lemma others_set (m : t) (k v : Z) : others (set m k v) k = others m k.
Proof.
  unfold others, entries.
  induction m as [|[k' v'] m IH]; simpl.
  - now rewrite Z.eqb_refl.
  - destruct (k' =? k) eqn:E; simpl.
    + now rewrite Z.eqb_refl.
    + now rewrite E, IH.
Qed.

Lemma others_delete (m : t) (k : Z) : others (delete m k) k = others m k.
Proof.
  unfold others, entries, delete.
  induction m as [|[k' v'] m IH]; simpl; [reflexivity|].
  destruct (k' =? k) eqn:E; simpl; [exact IH | now rewrite E, IH].
Qed.

Lemma get_others (m : t) (k k0 : Z) :
  k0 <> k -> get (others m k) k0 = get m k0.
Proof.
  intros Hne. unfold others, entries.
  induction m as [|[k' v'] m IH]; simpl; [reflexivity|].
  destruct (k' =? k) eqn:E; simpl.
  - apply Z.eqb_eq in E; subst k'.
    destruct (k =? k0) eqn:E0; [apply Z.eqb_eq in E0; lia | exact IH].
  - now rewrite IH.
Qed.

Lemma keys_set (m : t) (k v : Z) :
  keys (set m k v) = if has m k then keys m else keys m ++ [k].
Proof.
  unfold has, keys.
  induction m as [|[k' v'] m IH]; simpl; [reflexivity|].
  destruct (k' =? k) eqn:E; simpl.
  - apply Z.eqb_eq in E. now subst.
  - rewrite IH. now destruct (get m k).
Qed.

Lemma wf_set (m : t) (k v : Z) : wf m -> wf (set m k v).
Proof.
  unfold wf. intros H. rewrite keys_set.
  unfold has. destruct (get m k) eqn:E; [exact H|].
  apply get_None_notin in E.
  apply NoDup_rev in H. rewrite <- (rev_involutive (keys m ++ [k])).
  apply NoDup_rev. rewrite rev_app_distr. simpl.
  constructor; [now rewrite <- in_rev | exact H].
Qed.

Lemma keys_delete_incl (m : t) (k k0 : Z) :
  In k0 (keys (delete m k)) -> In k0 (keys m).
Proof.
  unfold keys, delete. rewrite !in_map_iff.
  intros [e [He Hin]]. apply filter_In in Hin. exists e. tauto.
Qed.

Lemma wf_delete (m : t) (k : Z) : wf m -> wf (delete m k).
Proof.
  unfold wf.
  induction m as [|[k' v'] m IH]; simpl; intros H; [exact H|].
  inversion H as [|? ? Hnin Hnd]; subst.
  destruct (k' =? k); simpl; [now apply IH|].
  constructor; [|now apply IH].
  intros Hin. apply Hnin. exact (keys_delete_incl m k k' Hin).
Qed.

Lemma values_set (P : Z -> Prop) (m : t) (k v : Z) :
  P v -> Forall P (values m) -> Forall P (values (set m k v)).
Proof.
  unfold values. intros Hv.
  induction m as [|[k' v'] m IH]; simpl; intros H.
  - now constructor.
  - inversion H; subst.
    destruct (k' =? k); simpl; constructor; auto.
Qed.

Lemma values_delete (P : Z -> Prop) (m : t) (k : Z) :
  Forall P (values m) -> Forall P (values (delete m k)).
Proof.
  unfold values, delete.
  induction m as [|[k' v'] m IH]; simpl; intros H; [exact H|].
  inversion H; subst.
  destruct (k' =? k); simpl; [|constructor]; auto.
Qed.

End JSMapFacts.

(** ** The message handler *)

(** What the handler does once the length test has passed. *)
Lemma handleMIDIMessage_bytes (status note velocity : Z) (rest : list Z)
      (prev : JSMap.t) :
  handleMIDIMessage (message (status :: note :: velocity :: rest)) prev =
  if ((status =? 0x90) || (status =? 0x99)) && (velocity >? 0)
  then JSMap.set prev note velocity
  else if ((status =? 0x80) || (status =? 0x89))
          || ((Z.land status 0xf0 =? 0x90) && (velocity =? 0))
       then JSMap.delete prev note
       else prev.
Proof.
  unfold handleMIDIMessage, message. cbn [data].
  replace (Z.of_nat (List.length (status :: note :: velocity :: rest)) <? 3)
    with false; [reflexivity|].
  symmetry. apply Z.ltb_ge. cbn [List.length]. lia.
Qed.

Lemma handleMIDIMessage_short (event : MIDIMessageEvent) (prev : JSMap.t) :
  short event -> handleMIDIMessage event prev = prev.
Proof.
  unfold short, handleMIDIMessage.
  destruct (data event) as [d|]; [|reflexivity].
  intros H.
  replace (Z.of_nat (List.length d) <? 3) with true; [reflexivity|].
  symmetry. apply Z.ltb_lt. lia.
Qed.

(** A message is short or starts with a status, a note and a velocity. *)
Lemma message_cases (event : MIDIMessageEvent) :
  short event \/
  exists status note velocity rest,
    event = message (status :: note :: velocity :: rest).
Proof.
  destruct event as [[d|]]; [|left; exact I].
  destruct d as [|s [|n [|v rest]]];
    try (left; unfold short; simpl; lia).
  right. now exists s, n, v, rest.
Qed.

(** C1.  A message of at least three bytes whose status byte is 0x90 or
    0x99 and whose velocity byte is in [1,127] leaves PressedNotes
    mapping the note to that velocity: the pair is among the entries, a
    note already held keeps its place in the iteration order and a new
    note is added at the end. *)
Theorem note_on_places_pair
        (status note velocity : Z) (rest : list Z) (prev : JSMap.t) :
  status = 0x90 \/ status = 0x99 ->
  1 <= velocity <= 127 ->
  let next :=
    handleMIDIMessage (message (status :: note :: velocity :: rest)) prev in
  JSMap.get next note = Some velocity
  /\ In (note, velocity) (JSMap.entries next)
  /\ JSMap.keys next =
     if JSMap.has prev note then JSMap.keys prev
     else JSMap.keys prev ++ [note].
Proof.
  intros Hst Hv next. subst next.
  rewrite handleMIDIMessage_bytes.
  assert (Hon : ((status =? 0x90) || (status =? 0x99)) && (velocity >? 0)
                = true).
  { apply andb_true_iff. split.
    - destruct Hst as [-> | ->]; reflexivity.
    - apply Z.gtb_lt. lia. }
  rewrite Hon.
  pose proof (JSMapFacts.get_set_same prev note velocity) as Hget.
  repeat split.
  - exact Hget.
  - exact (JSMapFacts.get_Some_In _ _ _ Hget).
  - apply JSMapFacts.keys_set.
Qed.

Lemma note_on_places_pair_witness :
  JSMap.get (handleMIDIMessage (message [0x99; 60; 100]) [(64, 80); (60, 1)])
            60 = Some 100.
Proof.
  apply (note_on_places_pair 0x99 60 100 [] [(64, 80); (60, 1)]).
  - right. reflexivity.
  - lia.
Defined.

(** C2.  When a note is in PressedNotes, a message for that note that is
    an explicit note-off on channel 0 or 9 (status 0x80 or 0x89, any
    velocity byte) or that has a note-on status byte and velocity 0
    leaves PressedNotes without that note. *)
Theorem release_removes_note
        (status note velocity : Z) (rest : list Z) (prev : JSMap.t) :
  JSMap.has prev note = true ->
  release status velocity ->
  let next :=
    handleMIDIMessage (message (status :: note :: velocity :: rest)) prev in
  JSMap.get next note = None
  /\ JSMap.has next note = false
  /\ ~ In note (JSMap.keys next).
Proof.
  intros _ Hrel next. subst next.
  rewrite handleMIDIMessage_bytes.
  assert (Hget : JSMap.get (JSMap.delete prev note) note = None)
    by apply JSMapFacts.get_delete_same.
  assert (Hall : JSMap.get (JSMap.delete prev note) note = None
                 /\ JSMap.has (JSMap.delete prev note) note = false
                 /\ ~ In note (JSMap.keys (JSMap.delete prev note))).
  { repeat split.
    - exact Hget.
    - unfold JSMap.has. now rewrite Hget.
    - now apply JSMapFacts.get_None_notin. }
  destruct Hrel as [[-> | ->] | [Hnib ->]].
  - exact Hall.
  - exact Hall.
  - rewrite andb_false_r. apply Z.eqb_eq in Hnib. rewrite Hnib.
    rewrite orb_true_r. exact Hall.
Qed.

Lemma release_removes_note_witness :
  JSMap.get (handleMIDIMessage (message [0x90; 60; 0]) [(64, 80); (60, 1)])
            60 = None.
Proof.
  apply (release_removes_note 0x90 60 0 [] [(64, 80); (60, 1)]).
  - reflexivity.
  - right. split; reflexivity.
Defined.

(** C3 as it is worded does not hold: 0x91 is none of the status bytes
    0x90, 0x99, 0x80, 0x89, yet a zero-velocity message with that status
    removes the note. *)
Lemma other_channel_zero_velocity_releases :
  named_status 0x91 = false
  /\ handleMIDIMessage (message [0x91; 60; 0]) [(60, 100)] = []
  /\ handleMIDIMessage (message [0x91; 60; 0]) [(60, 100)] <> [(60, 100)].
Proof.
  repeat split; [discriminate].
Qed.

(** C3, amended.  A message that is shorter than three bytes, or whose
    status byte is none of 0x90, 0x99, 0x80, 0x89 and which is not a
    zero-velocity message with a note-on status byte (high nibble 9),
    leaves PressedNotes exactly as it was. *)
Theorem unrecognized_message_ignored
        (event : MIDIMessageEvent) (prev : JSMap.t) :
  short event
  \/ (exists status,
        byte event 0 = Some status
        /\ named_status status = false
        /\ ~ (Z.land status 0xf0 = 0x90 /\ byte event 2 = Some 0)) ->
  handleMIDIMessage event prev = prev.
Proof.
  intros [Hshort | [status [Hb0 [Hnamed Hzero]]]].
  - now apply handleMIDIMessage_short.
  - destruct (message_cases event) as [Hshort | [s [n [v [rest ->]]]]].
    + now apply handleMIDIMessage_short.
    + rewrite handleMIDIMessage_bytes.
      cbn in Hb0. injection Hb0 as ->. cbn in Hzero.
      unfold named_status in Hnamed.
      apply orb_false_iff in Hnamed as [Hnamed H89].
      apply orb_false_iff in Hnamed as [Hon H80].
      rewrite Hon, H80, H89. cbn [andb orb].
      destruct (Z.land status 0xf0 =? 0x90) eqn:Enib; [|reflexivity].
      destruct (v =? 0) eqn:Ev; [|reflexivity].
      exfalso. apply Hzero.
      apply Z.eqb_eq in Enib, Ev. subst v. split; [exact Enib | reflexivity].
Qed.

Lemma unrecognized_message_ignored_witness :
  handleMIDIMessage (message [0x91; 60; 100]) [(60, 100)] = [(60, 100)]
  /\ handleMIDIMessage (message [0x90; 60]) [(60, 100)] = [(60, 100)].
Proof.
  split.
  - apply (unrecognized_message_ignored (message [0x91; 60; 100])).
    right. exists 0x91. repeat split.
    intros [_ H]. discriminate H.
  - apply (unrecognized_message_ignored (message [0x90; 60])).
    left. unfold short. simpl. lia.
Defined.

(** One message keeps every stored velocity in a range that contains
    the velocity bytes of press messages. *)
Lemma handleMIDIMessage_values (P : Z -> Prop) (event : MIDIMessageEvent)
      (m : JSMap.t) :
  (forall v, byte event 2 = Some v -> v > 0 -> P v) ->
  Forall P (JSMap.values m) ->
  Forall P (JSMap.values (handleMIDIMessage event m)).
Proof.
  intros Hv Hm.
  destruct (message_cases event) as [Hshort | [s [n [v [rest ->]]]]].
  - now rewrite handleMIDIMessage_short.
  - rewrite handleMIDIMessage_bytes.
    destruct (((s =? 0x90) || (s =? 0x99)) && (v >? 0)) eqn:Hon.
    + apply JSMapFacts.values_set; [|exact Hm].
      apply andb_true_iff in Hon as [_ Hpos]. apply Z.gtb_lt in Hpos.
      apply Hv; [reflexivity | lia].
    + destruct (((s =? 0x80) || (s =? 0x89))
                || ((Z.land s 0xf0 =? 0x90) && (v =? 0)));
        [now apply JSMapFacts.values_delete | exact Hm].
Qed.

Lemma handle_all_values (P : Z -> Prop) (events : list MIDIMessageEvent) :
  Forall (fun ev => forall v, byte ev 2 = Some v -> v > 0 -> P v) events ->
  forall m, Forall P (JSMap.values m) ->
            Forall P (JSMap.values (handle_all events m)).
Proof.
  unfold handle_all.
  induction 1 as [|ev events Hev _ IH]; simpl; intros m Hm; [exact Hm|].
  apply IH. now apply handleMIDIMessage_values.
Qed.

(** C9.  Starting from the empty map, after any sequence of messages
    a zero velocity is never stored, and when the messages are MIDI
    messages (the velocity byte is a data byte, at most 127) every
    velocity stored in PressedNotes is in [1,127]. *)
Theorem stored_velocities_in_range (events : list MIDIMessageEvent) :
  Forall (fun v => 1 <= v) (JSMap.values (handle_all events JSMap.empty))
  /\ (Forall (fun ev => forall v, byte ev 2 = Some v -> v <= 127) events ->
      Forall (fun v => 1 <= v <= 127)
             (JSMap.values (handle_all events JSMap.empty))).
Proof.
  split.
  - apply handle_all_values; [|constructor].
    apply Forall_forall. intros ev _ v _ Hpos. lia.
  - intros Hdata.
    apply handle_all_values; [|constructor].
    eapply Forall_impl; [|exact Hdata].
    cbv beta. intros ev Hle v Hb Hpos. specialize (Hle v Hb). lia.
Qed.

Lemma stored_velocities_in_range_witness :
  Forall (fun v => 1 <= v <= 127)
         (JSMap.values
            (handle_all [message [0x90; 60; 100]; message [0x90; 64; 0];
                         message [0x99; 60; 127]; message [0x90; 62; 1]]
                        JSMap.empty)).
Proof.
  apply stored_velocities_in_range.
  repeat constructor; cbn; intros v [= <-]; lia.
Defined.

(** C10.  One message changes at most the entry of the note in its
    byte 1: the entries of the other notes are the same, in the same
    order, and the lookup of any other note is unchanged.  A release
    for a note that is not in PressedNotes leaves the map as it was. *)
Theorem handler_frame (event : MIDIMessageEvent) (prev : JSMap.t) :
  (forall k, byte event 1 <> Some k ->
             JSMap.get (handleMIDIMessage event prev) k = JSMap.get prev k)
  /\ (forall note, byte event 1 = Some note ->
        JSMap.others (handleMIDIMessage event prev) note
        = JSMap.others prev note)
  /\ (forall status note velocity rest,
        event = message (status :: note :: velocity :: rest) ->
        release status velocity ->
        JSMap.get prev note = None ->
        handleMIDIMessage event prev = prev).
Proof.
  assert (Hothers : forall note, byte event 1 = Some note ->
            JSMap.others (handleMIDIMessage event prev) note
            = JSMap.others prev note).
  { intros note Hb.
    destruct (message_cases event) as [Hshort | [s [n [v [rest ->]]]]].
    - now rewrite handleMIDIMessage_short.
    - cbn in Hb. injection Hb as ->.
      rewrite handleMIDIMessage_bytes.
      destruct (((s =? 0x90) || (s =? 0x99)) && (v >? 0)).
      + apply JSMapFacts.others_set.
      + destruct (((s =? 0x80) || (s =? 0x89))
                  || ((Z.land s 0xf0 =? 0x90) && (v =? 0)));
          [apply JSMapFacts.others_delete | reflexivity]. }
  split; [|split].
  - intros k Hk.
    destruct (message_cases event) as [Hshort | [s [n [v [rest Hev]]]]].
    + now rewrite handleMIDIMessage_short.
    + assert (Hne : k <> n).
      { intros ->. apply Hk. rewrite Hev. reflexivity. }
      rewrite <- (JSMapFacts.get_others (handleMIDIMessage event prev) n k Hne).
      rewrite <- (JSMapFacts.get_others prev n k Hne).
      rewrite Hothers; [reflexivity | rewrite Hev; reflexivity].
  - exact Hothers.
  - intros status note velocity rest -> Hrel Habs.
    rewrite handleMIDIMessage_bytes.
    destruct (((status =? 0x90) || (status =? 0x99)) && (velocity >? 0))
      eqn:Hon.
    + exfalso. apply andb_true_iff in Hon as [Hs Hpos].
      apply Z.gtb_lt in Hpos.
      destruct Hrel as [[-> | ->] | [_ ->]]; [discriminate Hs .. | lia].
    + destruct (((status =? 0x80) || (status =? 0x89))
                || ((Z.land status 0xf0 =? 0x90) && (velocity =? 0)));
        [now apply JSMapFacts.delete_absent | reflexivity].
Qed.

Lemma handler_frame_witness :
  JSMap.get (handleMIDIMessage (message [0x90; 60; 100]) [(64, 80)]) 64
  = Some 80
  /\ JSMap.others (handleMIDIMessage (message [0x80; 64; 0])
                                     [(60, 1); (64, 80); (67, 3)]) 64
     = [(60, 1); (67, 3)]
  /\ handleMIDIMessage (message [0x89; 61; 5]) [(60, 1); (64, 80)]
     = [(60, 1); (64, 80)].
Proof.
  split; [|split].
  - apply (proj1 (handler_frame (message [0x90; 60; 100]) [(64, 80)]) 64).
    cbn. discriminate.
  - apply (proj1 (proj2 (handler_frame (message [0x80; 64; 0])
                                       [(60, 1); (64, 80); (67, 3)])) 64).
    reflexivity.
  - apply (proj2 (proj2 (handler_frame (message [0x89; 61; 5])
                                       [(60, 1); (64, 80)]))
                 0x89 61 5 []).
    + reflexivity.
    + left. right. reflexivity.
    + reflexivity.
Defined.

(** ** Note names *)

Lemma pitch_class_cases (note : Z) :
  0 <= note ->
  Z.rem note 12 = note mod 12
  /\ (note mod 12 = 0 \/ note mod 12 = 1 \/ note mod 12 = 2
      \/ note mod 12 = 3 \/ note mod 12 = 4 \/ note mod 12 = 5
      \/ note mod 12 = 6 \/ note mod 12 = 7 \/ note mod 12 = 8
      \/ note mod 12 = 9 \/ note mod 12 = 10 \/ note mod 12 = 11).
Proof.
  intros Hnote. split.
  - apply Z.rem_mod_nonneg; lia.
  - pose proof (Z.mod_pos_bound note 12 ltac:(lia)). lia.
Qed.

(** C4.  For a note number in [0,127] the formatter returns the entry
    of NOTE_NAMES at index [note mod 12] followed by the decimal form of
    [floor(note/12) - 1]; notes 60, 69 and 0 give C4, A4 and C-1. *)
Theorem midiNoteToName_formula :
  (forall note, 0 <= note <= 127 ->
     midiNoteToName note = midiNoteToName_spec note
     /\ exists name,
          nth_error NOTE_NAMES (Z.to_nat (note mod 12)) = Some name
          /\ midiNoteToName note
             = (name ++ Number_toString (note / 12 - 1))%string)
  /\ midiNoteToName 60 = "C4"%string
  /\ midiNoteToName 69 = "A4"%string
  /\ midiNoteToName 0 = "C-1"%string.
Proof.
  split; [|repeat split].
  intros note [Hlo _].
  destruct (pitch_class_cases note Hlo) as [Hrem Hcases].
  unfold midiNoteToName, midiNoteToName_spec. rewrite Hrem.
  repeat (destruct Hcases as [-> | Hcases]); try rewrite Hcases;
    (split; [reflexivity | eexists; split; reflexivity]).
Qed.

Lemma midiNoteToName_formula_witness :
  midiNoteToName 127 = "G9"%string.
Proof.
  destruct (proj1 midiNoteToName_formula 127 ltac:(lia)) as [H _].
  rewrite H. reflexivity.
Defined.

(** ** The rendered list *)

Lemma insert_Permutation (x : Z * Z) (l : list (Z * Z)) :
  Permutation (JSArray.insert by_note x l) (x :: l).
Proof.
  induction l as [|y l IH]; simpl; [reflexivity|].
  destruct (by_note x y <=? 0); [reflexivity|].
  rewrite IH. apply perm_swap.
Qed.

Lemma sort_Permutation (l : list (Z * Z)) :
  Permutation (JSArray.sort by_note l) l.
Proof.
  unfold JSArray.sort.
  induction l as [|x l IH]; simpl; [reflexivity|].
  rewrite insert_Permutation. now constructor.
Qed.

Lemma insert_sorted (x : Z * Z) (l : list (Z * Z)) :
  StronglySorted note_le l -> StronglySorted note_le (JSArray.insert by_note x l).
Proof.
  induction 1 as [|y l Hs IH Hall]; simpl.
  - repeat constructor.
  - destruct (by_note x y <=? 0) eqn:E.
    + apply Z.leb_le in E. unfold by_note in E.
      constructor; [now constructor|].
      constructor; [unfold note_le; lia|].
      eapply Forall_impl; [|exact Hall].
      unfold note_le. intros z Hz. lia.
    + apply Z.leb_gt in E. unfold by_note in E.
      constructor; [exact IH|].
      eapply Permutation_Forall;
        [symmetry; apply insert_Permutation|].
      constructor; [unfold note_le; lia | exact Hall].
Qed.

Lemma sort_sorted (l : list (Z * Z)) :
  StronglySorted note_le (JSArray.sort by_note l).
Proof.
  unfold JSArray.sort.
  induction l as [|x l IH]; simpl; [constructor|].
  now apply insert_sorted.
Qed.

(** With distinct keys, ascending is strictly ascending. *)
Lemma sorted_strict (l : list (Z * Z)) :
  NoDup (map fst l) -> StronglySorted note_le l -> StronglySorted note_lt l.
Proof.
  induction l as [|x l IH]; simpl; intros Hnd Hs; [constructor|].
  inversion Hnd as [|? ? Hnin Hnd']; subst.
  apply StronglySorted_inv in Hs as [Hs Hall].
  constructor; [now apply IH|].
  rewrite Forall_forall in *. intros y Hy.
  specialize (Hall y Hy). unfold note_le in Hall. unfold note_lt.
  assert (fst y <> fst x); [|lia].
  intros Heq. apply Hnin. rewrite <- Heq. now apply in_map.
Qed.

(** A strictly ascending list is determined by its elements. *)
Lemma strict_sorted_unique (l1 l2 : list (Z * Z)) :
  StronglySorted note_lt l1 -> StronglySorted note_lt l2 ->
  Permutation l1 l2 -> l1 = l2.
Proof.
  intros H1. revert l2.
  induction H1 as [|a l1 Hs1 IH Ha]; intros l2 H2 Hp.
  - apply Permutation_nil in Hp. now subst.
  - destruct H2 as [|b l2 Hs2 Hb].
    + symmetry in Hp. now apply Permutation_nil in Hp.
    + assert (Hab : a = b).
      { assert (Hin_a : In a (b :: l2))
          by (eapply Permutation_in; [exact Hp | now left]).
        assert (Hin_b : In b (a :: l1))
          by (eapply Permutation_in; [symmetry; exact Hp | now left]).
        destruct Hin_a as [-> | Hin_a]; [reflexivity|].
        destruct Hin_b as [-> | Hin_b]; [reflexivity|].
        rewrite Forall_forall in Ha, Hb.
        specialize (Ha b Hin_b). specialize (Hb a Hin_a).
        unfold note_lt in *. lia. }
      subst b. f_equal. apply IH; [exact Hs2|].
      now apply Permutation_cons_inv in Hp.
Qed.

(** Every map the handler can build from the empty map has distinct
    keys. *)
Lemma handleMIDIMessage_wf (event : MIDIMessageEvent) (m : JSMap.t) :
  JSMap.wf m -> JSMap.wf (handleMIDIMessage event m).
Proof.
  intros Hwf.
  destruct (message_cases event) as [Hshort | [s [n [v [rest ->]]]]].
  - now rewrite handleMIDIMessage_short.
  - rewrite handleMIDIMessage_bytes.
    destruct (((s =? 0x90) || (s =? 0x99)) && (v >? 0));
      [now apply JSMapFacts.wf_set|].
    destruct (((s =? 0x80) || (s =? 0x89))
              || ((Z.land s 0xf0 =? 0x90) && (v =? 0)));
      [now apply JSMapFacts.wf_delete | exact Hwf].
Qed.

Lemma handle_all_wf (events : list MIDIMessageEvent) :
  forall m, JSMap.wf m -> JSMap.wf (handle_all events m).
Proof.
  unfold handle_all.
  induction events as [|ev events IH]; simpl; intros m Hm; [exact Hm|].
  apply IH. now apply handleMIDIMessage_wf.
Qed.

(** C5.  Whatever PressedNotes holds (a map: no note twice), the
    rendered list has exactly its entries, in strictly ascending order of
    note number, and does not depend on the order in which the notes
    were pressed: two maps with the same entries render alike. *)
Theorem pressedList_ascending (m : JSMap.t) :
  JSMap.wf m ->
  StronglySorted (fun a b => fst a < fst b) (pressedList m)
  /\ StronglySorted Z.lt (map fst (pressedList m))
  /\ Permutation (pressedList m) (JSMap.entries m)
  /\ (forall m', Permutation (JSMap.entries m) (JSMap.entries m') ->
                 pressedList m' = pressedList m).
Proof.
  intros Hwf.
  assert (Hperm : forall x, Permutation (pressedList x) (JSMap.entries x))
    by (intros x; apply sort_Permutation).
  assert (Hstrict : forall x, JSMap.wf x ->
                              StronglySorted note_lt (pressedList x)).
  { intros x Hx. apply sorted_strict; [|apply sort_sorted].
    eapply Permutation_NoDup; [|exact Hx].
    apply Permutation_map. symmetry. apply Hperm. }
  split; [exact (Hstrict m Hwf)|]. split; [|split; [apply Hperm|]].
  - specialize (Hstrict m Hwf).
    induction Hstrict as [|a l Hs IH Ha]; simpl; constructor;
      [exact IH | now apply Forall_map].
  - intros m' Hmm'. apply strict_sorted_unique.
    + apply Hstrict. unfold JSMap.wf, JSMap.keys.
      eapply Permutation_NoDup; [|exact Hwf].
      now apply Permutation_map.
    + now apply Hstrict.
    + rewrite (Hperm m'), (Hperm m). now symmetry.
Qed.

Lemma pressedList_ascending_witness :
  StronglySorted Z.lt
    (map fst (pressedList
                (handle_all [message [0x90; 64; 90]; message [0x90; 60; 70];
                             message [0x90; 67; 80]] JSMap.empty))).
Proof.
  apply pressedList_ascending.
  apply handle_all_wf. constructor.
Defined.

(** Pressing 64, then 60, then 67 renders 60, 64, 67. *)
Example pressedList_64_60_67 (v1 v2 v3 : Z) :
  0 < v1 -> 0 < v2 -> 0 < v3 ->
  pressedList
    (handle_all [message [0x90; 64; v1]; message [0x90; 60; v2];
                 message [0x90; 67; v3]] JSMap.empty)
  = [(60, v2); (64, v1); (67, v3)].
Proof.
  intros H1 H2 H3. unfold handle_all. cbn [fold_left].
  rewrite !handleMIDIMessage_bytes.
  apply Z.gtb_lt in H1, H2, H3. cbn [Z.eqb Pos.eqb orb andb].
  rewrite H1. cbn [JSMap.set JSMap.empty].
  rewrite H2. cbn. rewrite H3. reflexivity.
Qed.

(** ** The event loop *)

Lemma settled_step (env : Env) (a : App) (e : Event) :
  settled a -> step env a e = a.
Proof.
  intros (Hbtn & Hpend & Hacc).
  destruct e; simpl; rewrite ?Hbtn, ?Hpend, ?Hacc; reflexivity.
Qed.

Lemma settled_run (env : Env) (events : list Event) (a : App) :
  settled a -> run env events a = a.
Proof.
  intros Hs. unfold run.
  induction events as [|e events IH]; simpl; [reflexivity|].
  now rewrite settled_step.
Qed.

Lemma startup_inv (env : Env) : reachable_inv (startup env).
Proof.
  unfold startup, mountEffect, reachable_inv.
  destruct (navigator env) as [nav|]; [destruct (requestMIDIAccess nav)|];
    simpl; repeat split; try reflexivity; discriminate.
Qed.

(** Splits an instance of [reachable_inv] into its atoms and closes the
    ones that follow by computation or congruence. *)
Ltac inv_atoms :=
  unfold reachable_inv; simpl; repeat (split || intro);
  repeat match goal with
         | H : Some _ = Some _ |- _ => injection H as <-
         end;
  simpl in *; try congruence; auto.

Lemma step_inv (env : Env) (a : App) (e : Event) :
  reachable_inv a -> reachable_inv (step env a e).
Proof.
  intros Ha.
  destruct e as [|ins|err|ins|port event]; simpl.
  - (* click *)
    unfold connectOffered, connectMIDI.
    destruct (midiStatus a) eqn:Est; try exact Ha.
    destruct (navigator env) as [nav|]; [|exact Ha].
    destruct (requestMIDIAccess nav); simpl; [|exact Ha].
    destruct Ha as (_ & Hacc & Hidle & _).
    destruct (Hidle Est) as [Hnone _].
    inv_atoms.
  - (* fulfilled *)
    destruct (pending a) eqn:Ep; [|exact Ha].
    inv_atoms.
  - (* rejected *)
    destruct (pending a) eqn:Ep; [|exact Ha].
    destruct Ha as (Hpend & Hacc & _ & _).
    destruct (Hpend Ep) as [Hnone _].
    inv_atoms; destruct (String.eqb _ _); discriminate.
  - (* device list changed *)
    destruct (access a) as [acc|] eqn:Ea; [|exact Ha].
    destruct Ha as (Hpend & _ & _ & Hsub).
    destruct (Hsub acc Ea) as [Hs Hready].
    rewrite Hs. unfold onStateChange.
    inv_atoms; match goal with
               | Hp : pending a = true |- _ =>
                   destruct (Hpend Hp); congruence
               end.
  - (* message *)
    destruct (access a) as [acc|] eqn:Ea; [|exact Ha].
    destruct (nth_error (inputs acc) port) as [input|]; [|exact Ha].
    destruct (MIDIInput.lacks_handler input); [exact Ha|].
    destruct Ha as (Hpend & _ & Hidle & Hsub).
    destruct (Hsub acc Ea) as [Hs Hready].
    inv_atoms;
      try match goal with
          | Hp : pending a = true |- _ => destruct (Hpend Hp); congruence
          end.
Qed.

Lemma run_inv (env : Env) (events : list Event) :
  forall a, reachable_inv a -> reachable_inv (run env events a).
Proof.
  unfold run.
  induction events as [|e events IH]; simpl; intros a Ha; [exact Ha|].
  apply IH. now apply step_inv.
Qed.

(** C6.  When the pending access request is rejected, the status is
    fixed by the error alone: [denied] for a permission error (name
    SecurityError), [error] for any other; PressedNotes is empty then
    and stays empty, since no later event changes the state. *)
Theorem rejection_sets_status
        (env : Env) (events : list Event) (err : JSError.t) :
  pending (run env events (startup env)) = true ->
  let a' := step env (run env events (startup env)) (AccessRejected err) in
  midiStatus a'
  = (if String.eqb (JSError.name err) "SecurityError" then denied else error)
  /\ pressedNotes a' = JSMap.empty
  /\ emptyStateShown a' = true
  /\ (forall later, run env later a' = a').
Proof.
  intros Hp a'. subst a'.
  pose proof (run_inv env events _ (startup_inv env)) as Hinv.
  set (a := run env events (startup env)) in *.
  destruct Hinv as (Hpend & Hacc & _ & _).
  destruct (Hpend Hp) as [Hnone _].
  simpl. rewrite Hp. unfold onRejected. simpl.
  assert (Hempty : pressedNotes a = JSMap.empty) by exact (Hacc Hnone).
  split; [reflexivity|]. split; [exact Hempty|]. split.
  - unfold emptyStateShown. simpl. now rewrite Hempty.
  - intros later. apply settled_run.
    unfold settled, connectOffered. simpl.
    repeat split; [|exact Hnone].
    now destruct (String.eqb _ _).
Qed.

Lemma rejection_sets_status_witness :
  let env := {| navigator := Some {| requestMIDIAccess := true |} |} in
  let a' := run env [ClickConnect;
                     AccessRejected {| JSError.name := "SecurityError" |};
                     MIDIMessage 0 (message [0x90; 60; 100])]
                (startup env) in
  midiStatus a' = denied /\ pressedNotes a' = JSMap.empty.
Proof.
  intros env a'.
  destruct (rejection_sets_status env [ClickConnect]
              {| JSError.name := "SecurityError" |} eq_refl)
    as (Hst & Hnotes & _ & Hlater).
  subst a'.
  change (run env [ClickConnect;
                   AccessRejected {| JSError.name := "SecurityError" |};
                   MIDIMessage 0 (message [0x90; 60; 100])] (startup env))
    with (run env [MIDIMessage 0 (message [0x90; 60; 100])]
              (step env (run env [ClickConnect] (startup env))
                    (AccessRejected {| JSError.name := "SecurityError" |}))).
  rewrite Hlater. split; [exact Hst | exact Hnotes].
Defined.

(** C7 as it is worded does not hold: where [navigator] is not declared
    the API is absent, but the [typeof] guard of line 41 keeps the mount
    effect from firing and the status stays [idle], with the connect
    button offered. *)
Lemma undeclared_navigator_not_unsupported :
  api_absent {| navigator := None |}
  /\ midiStatus (startup {| navigator := None |}) = idle
  /\ midiStatus (startup {| navigator := None |}) <> unsupported
  /\ connectOffered (startup {| navigator := None |}) = true.
Proof.
  repeat split. discriminate.
Qed.

(** C7, amended.  When [navigator] exists and has no
    [requestMIDIAccess], the status is [unsupported] after the mount
    effect and no event moves the state; [connectMIDI] itself returns
    without touching the state; the connect button is rendered exactly
    when the status is [idle]. *)
Theorem unsupported_is_final (env : Env) (nav : Navigator) :
  navigator env = Some nav ->
  requestMIDIAccess nav = false ->
  midiStatus (startup env) = unsupported
  /\ (forall events, run env events (startup env) = startup env)
  /\ (forall events, midiStatus (run env events (startup env)) = unsupported)
  /\ (forall a, connectMIDI env a = Normal a)
  /\ (forall a, connectOffered a = true <-> midiStatus a = idle).
Proof.
  intros Hnav Hreq.
  assert (Hstart : startup env = setMidiStatus unsupported initial).
  { unfold startup, mountEffect. now rewrite Hnav, Hreq. }
  assert (Hfix : forall events, run env events (startup env) = startup env).
  { intros events. apply settled_run. rewrite Hstart.
    unfold settled. repeat split. }
  split; [now rewrite Hstart|]. split; [exact Hfix|]. split; [|split].
  - intros events. rewrite Hfix. now rewrite Hstart.
  - intros a. unfold connectMIDI. now rewrite Hnav, Hreq.
  - intros a. unfold connectOffered.
    destruct (midiStatus a); split; (reflexivity || discriminate).
Qed.

Lemma unsupported_is_final_witness :
  midiStatus
    (run {| navigator := Some {| requestMIDIAccess := false |} |}
         [ClickConnect; AccessGranted []; MIDIMessage 0 (message [0x90; 60; 9])]
         (startup {| navigator := Some {| requestMIDIAccess := false |} |}))
  = unsupported.
Proof.
  apply (unsupported_is_final
           {| navigator := Some {| requestMIDIAccess := false |} |}
           {| requestMIDIAccess := false |} eq_refl eq_refl).
Defined.

(** ** Device changes *)

Lemma attach_handled (input : MIDIInput.t) :
  MIDIInput.lacks_handler input = false -> MIDIInput.attach input = input.
Proof.
  destruct input as [n i [[|tag]|]]; simpl; intros H;
    (reflexivity || discriminate).
Qed.

Lemma onstatechange_from (ins : list MIDIInput.t) :
  forall acc,
    names (fold_left statechange_body ins acc)
    = names acc ++ map inputLabel ins
    /\ visited (fold_left statechange_body ins acc)
       = visited acc ++ map MIDIInput.attach ins
    /\ assignments (fold_left statechange_body ins acc)
       = (assignments acc
          + List.length (filter MIDIInput.lacks_handler ins))%nat.
Proof.
  induction ins as [|input ins IH]; intros acc; simpl.
  - rewrite !app_nil_r. repeat split. lia.
  - destruct (IH (statechange_body acc input)) as (Hn & Hv & Ha).
    rewrite Hn, Hv, Ha. unfold statechange_body.
    destruct (MIDIInput.lacks_handler input) eqn:E; simpl;
      rewrite <- !app_assoc; simpl.
    + repeat split. lia.
    + rewrite (attach_handled input E). repeat split.
Qed.

Lemma attach_all_from (ins : list MIDIInput.t) :
  forall acc,
    names (fold_left attach_body ins acc) = names acc ++ map inputLabel ins
    /\ visited (fold_left attach_body ins acc)
       = visited acc ++ map MIDIInput.attach ins
    /\ assignments (fold_left attach_body ins acc)
       = (assignments acc + List.length ins)%nat.
Proof.
  induction ins as [|input ins IH]; intros acc; simpl.
  - rewrite !app_nil_r. repeat split. lia.
  - destruct (IH (attach_body acc input)) as (Hn & Hv & Ha).
    rewrite Hn, Hv, Ha. simpl. rewrite <- !app_assoc. simpl.
    repeat split. lia.
Qed.

(** C8 as it is worded does not hold: an input that already carries the
    handler is skipped by the guard of line 63, so a change event on one
    such input executes no assignment. *)
Lemma attached_input_not_reassigned :
  ~ assigns_every_input
      [{| MIDIInput.name := Some "Keys"%string;
          MIDIInput.id := Some "in-1"%string;
          MIDIInput.onmidimessage := Some TheHandler |}].
Proof.
  unfold assigns_every_input. simpl. discriminate.
Qed.

(** C8, amended.  On every device-list-changed event the callback
    leaves every current input carrying the one message handler,
    assigning it only to the inputs that do not carry it yet, and
    recomputes InputNames from the current inputs; in the view, the
    names shown are those of the new device set and nothing else of the
    state changes. *)
Theorem statechange_reattaches (ins : list MIDIInput.t) :
  names (onstatechange ins) = map inputLabel ins
  /\ visited (onstatechange ins) = map MIDIInput.attach ins
  /\ Forall (fun i => MIDIInput.onmidimessage i = Some TheHandler)
            (visited (onstatechange ins))
  /\ assignments (onstatechange ins)
     = List.length (filter MIDIInput.lacks_handler ins)
  /\ (forall env events,
        access (run env events (startup env)) <> None ->
        let a := run env events (startup env) in
        let a' := step env a (DeviceListChanged ins) in
        inputNames a' = map inputLabel ins
        /\ access a' = Some {| inputs := map MIDIInput.attach ins;
                               subscribed := true |}
        /\ pressedNotes a' = pressedNotes a
        /\ midiStatus a' = midiStatus a).
Proof.
  destruct (onstatechange_from ins no_visit) as (Hn & Hv & Ha).
  fold (onstatechange ins) in Hn, Hv, Ha. simpl in Hn, Hv, Ha.
  split; [exact Hn|]. split; [exact Hv|]. split; [|split; [exact Ha|]].
  - rewrite Hv. apply Forall_map. apply Forall_forall. reflexivity.
  - intros env events Hsome a a'. subst a'.
    pose proof (run_inv env events _ (startup_inv env)) as Hinv.
    fold a in Hinv, Hsome.
    destruct Hinv as (_ & _ & _ & Hsub).
    destruct (access a) as [acc|] eqn:Ea; [|contradiction].
    destruct (Hsub acc eq_refl) as [Hs _].
    simpl. rewrite Ea, Hs. unfold onStateChange. simpl.
    rewrite Hn, Hv. repeat split.
Qed.

Lemma statechange_reattaches_witness :
  let env := {| navigator := Some {| requestMIDIAccess := true |} |} in
  let keys := {| MIDIInput.name := Some "Keys"%string;
                 MIDIInput.id := Some "in-1"%string;
                 MIDIInput.onmidimessage := None |} in
  let pads := {| MIDIInput.name := None;
                 MIDIInput.id := Some "in-2"%string;
                 MIDIInput.onmidimessage := None |} in
  inputNames (run env [ClickConnect; AccessGranted [keys];
                       DeviceListChanged [MIDIInput.attach keys; pads]]
                  (startup env))
  = ["Keys"; "in-2"]%string.
Proof.
  intros env keys pads.
  apply (proj2 (proj2 (proj2 (proj2
           (statechange_reattaches [MIDIInput.attach keys; pads]))))
           env [ClickConnect; AccessGranted [keys]]).
  discriminate.
Defined.

(** * Further properties of the handler *)

Module JSMapLaws.
Import JSMap.

Lemma set_set (m : t) (k v1 v2 : Z) : set (set m k v1) k v2 = set m k v2.
Proof.
  induction m as [|[k' v'] m IH]; simpl.
  - now rewrite Z.eqb_refl.
  - destruct (k' =? k) eqn:E; simpl.
    + now rewrite Z.eqb_refl.
    + now rewrite E, IH.
Qed.

Lemma delete_delete (m : t) (k : Z) : delete (delete m k) k = delete m k.
Proof. exact (JSMapFacts.others_delete m k). Qed.

Lemma delete_set (m : t) (k v : Z) : delete (set m k v) k = delete m k.
Proof. exact (JSMapFacts.others_set m k v). Qed.

Lemma get_delete_other (m : t) (k k0 : Z) :
  k0 <> k -> get (delete m k) k0 = get m k0.
Proof. exact (JSMapFacts.get_others m k k0). Qed.

Lemma In_get (m : t) (k v : Z) : wf m -> In (k, v) m -> get m k = Some v.
Proof.
  unfold wf, keys.
  induction m as [|[k' v'] m IH]; simpl; intros Hnd Hin; [contradiction|].
  inversion Hnd as [|? ? Hnin Hnd']; subst.
  destruct Hin as [[= -> ->] | Hin].
  - now rewrite Z.eqb_refl.
  - destruct (k' =? k) eqn:E; [|now apply IH].
    apply Z.eqb_eq in E; subst k'. exfalso. apply Hnin.
    change k with (fst (k, v)). now apply in_map.
Qed.

Lemma wf_NoDup (m : t) : wf m -> NoDup m.
Proof. unfold wf, keys. apply NoDup_map_inv. Qed.

(** Two maps with the same lookups have the same entries. *)
Lemma ext_Permutation (m1 m2 : t) :
  wf m1 -> wf m2 -> (forall k, get m1 k = get m2 k) -> Permutation m1 m2.
Proof.
  intros H1 H2 Hget.
  apply NoDup_Permutation; try now apply wf_NoDup.
  intros [k v]. split; intros Hin.
  - apply JSMapFacts.get_Some_In. rewrite <- Hget. now apply In_get.
  - apply JSMapFacts.get_Some_In. rewrite Hget. now apply In_get.
Qed.

End JSMapLaws.

(** The rendered list depends on the lookups of the map only. *)
Lemma pressedList_ext (m1 m2 : JSMap.t) :
  JSMap.wf m1 -> JSMap.wf m2 ->
  (forall k, JSMap.get m1 k = JSMap.get m2 k) ->
  pressedList m1 = pressedList m2.
Proof.
  intros H1 H2 Hget.
  assert (Hstrict : forall x, JSMap.wf x ->
                              StronglySorted note_lt (pressedList x)).
  { intros x Hx. apply sorted_strict; [|apply sort_sorted].
    eapply Permutation_NoDup; [|exact Hx].
    apply Permutation_map. symmetry. apply sort_Permutation. }
  apply strict_sorted_unique; try now apply Hstrict.
  unfold pressedList, JSArray.from, JSMap.entries.
  rewrite !sort_Permutation. now apply JSMapLaws.ext_Permutation.
Qed.

(** The lookups after one message of three bytes or more. *)
Lemma handleMIDIMessage_get
      (status note velocity : Z) (rest : list Z) (m : JSMap.t) (k : Z) :
  JSMap.get
    (handleMIDIMessage (message (status :: note :: velocity :: rest)) m) k
  = if ((status =? 0x90) || (status =? 0x99)) && (velocity >? 0)
    then (if k =? note then Some velocity else JSMap.get m k)
    else if ((status =? 0x80) || (status =? 0x89))
            || ((Z.land status 0xf0 =? 0x90) && (velocity =? 0))
         then (if k =? note then None else JSMap.get m k)
         else JSMap.get m k.
Proof.
  rewrite handleMIDIMessage_bytes.
  destruct (((status =? 0x90) || (status =? 0x99)) && (velocity >? 0)).
  - destruct (k =? note) eqn:E.
    + apply Z.eqb_eq in E; subst. apply JSMapFacts.get_set_same.
    + apply Z.eqb_neq in E. now apply JSMapFacts.get_set_other.
  - destruct (((status =? 0x80) || (status =? 0x89))
              || ((Z.land status 0xf0 =? 0x90) && (velocity =? 0)));
      [|reflexivity].
    destruct (k =? note) eqn:E.
    + apply Z.eqb_eq in E; subst. apply JSMapFacts.get_delete_same.
    + apply Z.eqb_neq in E. now apply JSMapLaws.get_delete_other.
Qed.

(** X1.  Handling the same message twice is the same as handling it
    once. *)
Theorem handleMIDIMessage_idempotent
        (event : MIDIMessageEvent) (m : JSMap.t) :
  handleMIDIMessage event (handleMIDIMessage event m)
  = handleMIDIMessage event m.
Proof.
  destruct (message_cases event) as [Hshort | [s [n [v [rest ->]]]]].
  - now rewrite !handleMIDIMessage_short.
  - rewrite !(handleMIDIMessage_bytes s n v rest).
    destruct (((s =? 0x90) || (s =? 0x99)) && (v >? 0));
      [apply JSMapLaws.set_set|].
    destruct (((s =? 0x80) || (s =? 0x89))
              || ((Z.land s 0xf0 =? 0x90) && (v =? 0)));
      [apply JSMapLaws.delete_delete | reflexivity].
Qed.

(** X2.  Pressing a note that is not held and then releasing it gives
    back the map as it was, entry for entry. *)
Theorem press_then_release_restores
        (on off note velocity off_velocity : Z) (rest rest' : list Z)
        (m : JSMap.t) :
  JSMap.get m note = None ->
  on = 0x90 \/ on = 0x99 ->
  0 < velocity ->
  release off off_velocity ->
  handleMIDIMessage (message (off :: note :: off_velocity :: rest'))
    (handleMIDIMessage (message (on :: note :: velocity :: rest)) m)
  = m.
Proof.
  intros Habs Hon Hv Hrel.
  assert (E1 : handleMIDIMessage (message (on :: note :: velocity :: rest)) m
               = JSMap.set m note velocity).
  { rewrite handleMIDIMessage_bytes.
    replace (((on =? 0x90) || (on =? 0x99)) && (velocity >? 0)) with true;
      [reflexivity|].
    symmetry. apply andb_true_iff. split.
    - destruct Hon as [-> | ->]; reflexivity.
    - apply Z.gtb_lt. lia. }
  rewrite E1, handleMIDIMessage_bytes.
  assert (Hdel : JSMap.delete (JSMap.set m note velocity) note = m).
  { rewrite JSMapLaws.delete_set. now apply JSMapFacts.delete_absent. }
  destruct Hrel as [[-> | ->] | [Hnib ->]].
  - exact Hdel.
  - exact Hdel.
  - rewrite andb_false_r. apply Z.eqb_eq in Hnib. rewrite Hnib.
    rewrite orb_true_r. exact Hdel.
Qed.

Lemma press_then_release_restores_witness :
  handleMIDIMessage (message [0x80; 62; 64])
    (handleMIDIMessage (message [0x99; 62; 100]) [(64, 80); (60, 1)])
  = [(64, 80); (60, 1)].
Proof.
  apply (press_then_release_restores 0x99 0x80 62 100 64 [] []).
  - reflexivity.
  - right. reflexivity.
  - lia.
  - left. left. reflexivity.
Defined.

(** X3.  For two messages that carry the same note, when the later one
    is a press or a release the earlier one does not matter: the
    lookups and the rendered list are those of the later message
    alone. *)
Theorem later_message_wins
        (s1 v1 s2 v2 note : Z) (r1 r2 : list Z) (m : JSMap.t) :
  JSMap.wf m ->
  ((s2 = 0x90 \/ s2 = 0x99) /\ 0 < v2) \/ release s2 v2 ->
  let both :=
    handleMIDIMessage (message (s2 :: note :: v2 :: r2))
      (handleMIDIMessage (message (s1 :: note :: v1 :: r1)) m) in
  let last := handleMIDIMessage (message (s2 :: note :: v2 :: r2)) m in
  (forall k, JSMap.get both k = JSMap.get last k)
  /\ pressedList both = pressedList last.
Proof.
  intros Hwf Hlast both last. subst both last.
  assert (Hget : forall k,
    JSMap.get
      (handleMIDIMessage (message (s2 :: note :: v2 :: r2))
         (handleMIDIMessage (message (s1 :: note :: v1 :: r1)) m)) k
    = JSMap.get (handleMIDIMessage (message (s2 :: note :: v2 :: r2)) m) k).
  { intros k.
    rewrite !(handleMIDIMessage_get s2 note v2 r2).
    rewrite (handleMIDIMessage_get s1 note v1 r1).
    assert (Hb : ((s2 =? 0x90) || (s2 =? 0x99)) && (v2 >? 0) = true
                 \/ ((s2 =? 0x80) || (s2 =? 0x89))
                    || ((Z.land s2 0xf0 =? 0x90) && (v2 =? 0)) = true).
    { destruct Hlast as [[Hs Hv] | [[-> | ->] | [Hnib ->]]].
      - left. apply andb_true_iff. split.
        + destruct Hs as [-> | ->]; reflexivity.
        + apply Z.gtb_lt. lia.
      - right. reflexivity.
      - right. reflexivity.
      - right. apply Z.eqb_eq in Hnib. rewrite Hnib. apply orb_true_r. }
    destruct (k =? note).
    - destruct (((s2 =? 0x90) || (s2 =? 0x99)) && (v2 >? 0));
        [reflexivity|].
      destruct Hb as [Hb | Hb]; [discriminate|]. now rewrite Hb.
    - repeat match goal with |- context [if ?b then _ else _] =>
               destruct b end; reflexivity. }
  split; [exact Hget|].
  apply pressedList_ext; [| |exact Hget];
    repeat apply handleMIDIMessage_wf; exact Hwf.
Qed.

Lemma later_message_wins_witness :
  pressedList
    (handleMIDIMessage (message [0x90; 60; 30])
       (handleMIDIMessage (message [0x80; 60; 0]) [(60, 9); (72, 5)]))
  = pressedList (handleMIDIMessage (message [0x90; 60; 30])
                                   [(60, 9); (72, 5)]).
Proof.
  apply (later_message_wins 0x80 0 0x90 30 60 [] [] [(60, 9); (72, 5)]).
  - repeat constructor; simpl; intuition discriminate.
  - left. split; [left; reflexivity | lia].
Defined.

(** X4.  Messages for different notes commute: the lookups and the
    rendered list do not depend on which of the two arrived first. *)
Theorem different_notes_commute
        (e1 e2 : MIDIMessageEvent) (m : JSMap.t) :
  JSMap.wf m ->
  (forall n, byte e1 1 = Some n -> byte e2 1 <> Some n) ->
  (forall k, JSMap.get (handleMIDIMessage e1 (handleMIDIMessage e2 m)) k
             = JSMap.get (handleMIDIMessage e2 (handleMIDIMessage e1 m)) k)
  /\ pressedList (handleMIDIMessage e1 (handleMIDIMessage e2 m))
     = pressedList (handleMIDIMessage e2 (handleMIDIMessage e1 m)).
Proof.
  intros Hwf Hne.
  assert (Hget : forall k,
    JSMap.get (handleMIDIMessage e1 (handleMIDIMessage e2 m)) k
    = JSMap.get (handleMIDIMessage e2 (handleMIDIMessage e1 m)) k).
  { intros k.
    destruct (message_cases e1) as [Hs1 | [s1 [n1 [v1 [r1 E1]]]]].
    { now rewrite !(handleMIDIMessage_short e1). }
    destruct (message_cases e2) as [Hs2 | [s2 [n2 [v2 [r2 E2]]]]].
    { now rewrite !(handleMIDIMessage_short e2). }
    subst e1 e2.
    assert (Hn : n1 <> n2).
    { intros ->. apply (Hne n2); reflexivity. }
    rewrite (handleMIDIMessage_get s1 n1 v1 r1).
    rewrite (handleMIDIMessage_get s2 n2 v2 r2).
    rewrite (handleMIDIMessage_get s2 n2 v2 r2).
    rewrite (handleMIDIMessage_get s1 n1 v1 r1).
    destruct (k =? n1) eqn:K1; destruct (k =? n2) eqn:K2;
      try (apply Z.eqb_eq in K1, K2; congruence);
      repeat match goal with |- context [if ?b then _ else _] =>
               destruct b end; reflexivity. }
  split; [exact Hget|].
  apply pressedList_ext; [| |exact Hget];
    repeat apply handleMIDIMessage_wf; exact Hwf.
Qed.

Lemma different_notes_commute_witness :
  pressedList (handleMIDIMessage (message [0x90; 67; 30])
                 (handleMIDIMessage (message [0x99; 60; 90]) []))
  = pressedList (handleMIDIMessage (message [0x99; 60; 90])
                   (handleMIDIMessage (message [0x90; 67; 30]) [])).
Proof.
  apply (different_notes_commute (message [0x90; 67; 30])
                                 (message [0x99; 60; 90]) []).
  - constructor.
  - intros n [= <-]. discriminate.
Defined.

(** A note gets into the map only through a press. *)
Lemma handleMIDIMessage_get_Some
      (event : MIDIMessageEvent) (m : JSMap.t) (k v : Z) :
  JSMap.get (handleMIDIMessage event m) k = Some v ->
  JSMap.get m k = Some v \/ press event k v.
Proof.
  destruct (message_cases event) as [Hshort | [s [n [vel [rest ->]]]]].
  - rewrite handleMIDIMessage_short by exact Hshort. now left.
  - rewrite handleMIDIMessage_get.
    destruct (((s =? 0x90) || (s =? 0x99)) && (vel >? 0)) eqn:Hon.
    + destruct (k =? n) eqn:K; [|now left].
      intros [= <-]. apply Z.eqb_eq in K; subst k. right.
      apply andb_true_iff in Hon as [Hs Hv].
      exists s, rest. repeat split.
      * apply orb_true_iff in Hs as [Hs | Hs]; apply Z.eqb_eq in Hs; tauto.
      * apply Z.gtb_lt in Hv. lia.
    + destruct (((s =? 0x80) || (s =? 0x89))
                || ((Z.land s 0xf0 =? 0x90) && (vel =? 0)));
        [|now left].
      destruct (k =? n); [discriminate | now left].
Qed.

Lemma handle_all_get_Some (events : list MIDIMessageEvent) :
  forall (m : JSMap.t) (k v : Z),
    JSMap.get (handle_all events m) k = Some v ->
    JSMap.get m k = Some v \/ exists ev, In ev events /\ press ev k v.
Proof.
  unfold handle_all.
  induction events as [|ev events IH]; simpl; intros m k v H; [now left|].
  destruct (IH _ _ _ H) as [H1 | [ev' [Hin Hp]]].
  - destruct (handleMIDIMessage_get_Some ev m k v H1) as [Hm | Hp];
      [now left | right; exists ev; auto].
  - right. exists ev'. auto.
Qed.

(** X5.  Whatever the messages, a note held in PressedNotes was put
    there by a press among them: a note-on on channel 0 or 9 carrying
    that note and that velocity, the velocity being positive. *)
Theorem held_notes_come_from_presses
        (events : list MIDIMessageEvent) (note velocity : Z) :
  JSMap.get (handle_all events JSMap.empty) note = Some velocity ->
  exists ev, In ev events /\ press ev note velocity.
Proof.
  intros H.
  destruct (handle_all_get_Some events JSMap.empty note velocity H)
    as [Hempty | Hex]; [discriminate | exact Hex].
Qed.

Lemma held_notes_come_from_presses_witness :
  exists ev,
    In ev [message [0x91; 61; 40]; message [0x90; 60; 100]]
    /\ press ev 60 100.
Proof.
  apply (held_notes_come_from_presses
           [message [0x91; 61; 40]; message [0x90; 60; 100]] 60 100).
  reflexivity.
Defined.

(** Distinct integers of [0, bound) are at most [bound] many. *)
Lemma NoDup_range_length (bound : Z) (l : list Z) :
  NoDup l -> Forall (fun k => 0 <= k < bound) l ->
  Z.of_nat (List.length l) <= Z.max 0 bound.
Proof.
  intros Hnd Hall.
  assert (Hnat : NoDup (map Z.to_nat l)).
  { induction Hnd as [|x l Hnin Hnd IH]; simpl; [constructor|].
    apply Forall_cons_iff in Hall as [Hx Hl].
    constructor; [|now apply IH].
    intros Hin. apply in_map_iff in Hin as [y [Hy Hin]].
    rewrite Forall_forall in Hl. specialize (Hl y Hin). cbv beta in Hl.
    assert (y = x) by lia. subst y. contradiction. }
  assert (Hincl : incl (map Z.to_nat l) (seq 0 (Z.to_nat bound))).
  { intros n Hin. apply in_map_iff in Hin as [y [Hy Hin]].
    rewrite Forall_forall in Hall. specialize (Hall y Hin). cbv beta in Hall.
    apply in_seq. lia. }
  pose proof (NoDup_incl_length Hnat Hincl) as Hlen.
  rewrite length_map, length_seq in Hlen. lia.
Qed.

(** X6.  PressedNotes never grows beyond the range of the note bytes:
    if every note byte received is in [0, bound) then at most [bound]
    notes are held (128 for MIDI data bytes, 256 for any byte). *)
Theorem held_notes_bounded (bound : Z) (events : list MIDIMessageEvent) :
  Forall (fun ev => forall n, byte ev 1 = Some n -> 0 <= n < bound) events ->
  Z.of_nat (List.length (JSMap.entries (handle_all events JSMap.empty)))
  <= Z.max 0 bound.
Proof.
  intros Hbytes.
  set (m := handle_all events JSMap.empty).
  assert (Hwf : JSMap.wf m) by (apply handle_all_wf; constructor).
  assert (Hkeys : Forall (fun k => 0 <= k < bound) (JSMap.keys m)).
  { apply Forall_forall. intros k Hin.
    destruct (JSMap.get m k) as [v|] eqn:Hget.
    - destruct (handle_all_get_Some events JSMap.empty k v Hget)
        as [Hempty | [ev [Hev (s & rest & -> & _)]]]; [discriminate|].
      rewrite Forall_forall in Hbytes. apply (Hbytes _ Hev). reflexivity.
    - apply JSMapFacts.get_None_notin in Hget. contradiction. }
  unfold JSMap.entries.
  replace (List.length m) with (List.length (JSMap.keys m))
    by apply length_map.
  exact (NoDup_range_length bound _ Hwf Hkeys).
Qed.

Lemma held_notes_bounded_witness :
  Z.of_nat (List.length
              (JSMap.entries
                 (handle_all [message [0x90; 60; 100]; message [0x90; 127; 1];
                              message [0x99; 60; 3]] JSMap.empty)))
  <= Z.max 0 128.
Proof.
  apply held_notes_bounded.
  apply Forall_forall. intros ev Hin n Hb.
  destruct Hin as [<- | [<- | [<- | []]]];
    cbn in Hb; injection Hb as <-; lia.
Defined.

(** * Further properties of the formatter and of the rendered view *)

(** X7.  Two different note bytes never get the same name: on [0,255]
    the formatter is injective. *)
Theorem midiNoteToName_injective (a b : Z) :
  0 <= a <= 255 -> 0 <= b <= 255 -> a <> b ->
  midiNoteToName a <> midiNoteToName b.
Proof.
  intros Ha Hb Hne Heq. apply Hne.
  assert (Hall :
    forallb (fun x =>
      forallb (fun y =>
        implb (String.eqb (midiNoteToName x) (midiNoteToName y)) (x =? y))
        (map Z.of_nat (seq 0 256)))
      (map Z.of_nat (seq 0 256)) = true) by (vm_compute; reflexivity).
  assert (Hin : forall x, 0 <= x <= 255 -> In x (map Z.of_nat (seq 0 256))).
  { intros x Hx. apply in_map_iff. exists (Z.to_nat x).
    split; [lia | apply in_seq; lia]. }
  rewrite forallb_forall in Hall. specialize (Hall a (Hin a Ha)).
  rewrite forallb_forall in Hall. specialize (Hall b (Hin b Hb)).
  rewrite Heq, String.eqb_refl in Hall. now apply Z.eqb_eq.
Qed.

Lemma midiNoteToName_injective_witness :
  midiNoteToName 60 <> midiNoteToName 72.
Proof.
  apply (midiNoteToName_injective 60 72); lia.
Defined.

(** X8.  Outside [0,127]: every byte value still gets a name of the
    table followed by its octave, which lies between -1 and 20, while a
    small negative note that is not a multiple of 12 indexes the table
    out of range and is printed as "undefined" followed by the
    octave. *)
Theorem midiNoteToName_out_of_range (note : Z) :
  (0 <= note <= 255 ->
   exists name,
     In name NOTE_NAMES
     /\ midiNoteToName note
        = (name ++ Number_toString (note / 12 - 1))%string
     /\ -1 <= note / 12 - 1 <= 20)
  /\ (-256 <= note < 0 -> Z.rem note 12 <> 0 ->
      midiNoteToName note
      = ("undefined" ++ Number_toString (note / 12 - 1))%string).
Proof.
  split.
  - intros [Hnote Hbyte].
    destruct (pitch_class_cases note Hnote) as [Hrem Hcases].
    assert (Hoct : -1 <= note / 12 - 1 <= 20)
      by (Z.div_mod_to_equations; lia).
    unfold midiNoteToName. rewrite Hrem.
    repeat (destruct Hcases as [-> | Hcases]); try rewrite Hcases;
      (eexists; split; [|split; [reflexivity | exact Hoct]]);
      simpl; tauto.
  - intros [_ Hneg] Hrem.
    unfold midiNoteToName, JSArray.index.
    assert (Hlt : (Z.rem note 12 <? 0) = true).
    { apply Z.ltb_lt.
      assert (H12 : 12 <> 0) by lia. assert (Hle : note <= 0) by lia.
      pose proof (Z.rem_nonpos note 12 H12 Hle). lia. }
    now rewrite Hlt.
Qed.

Lemma midiNoteToName_out_of_range_witness :
  (exists name,
     In name NOTE_NAMES
     /\ midiNoteToName 255
        = (name ++ Number_toString (255 / 12 - 1))%string
     /\ -1 <= 255 / 12 - 1 <= 20)
  /\ midiNoteToName (-5) = "undefined-2"%string.
Proof.
  split.
  - apply (proj1 (midiNoteToName_out_of_range 255)). lia.
  - apply (proj2 (midiNoteToName_out_of_range (-5))); [lia | discriminate].
Defined.

Lemma pressedList_length (m : JSMap.t) :
  List.length (pressedList m) = List.length (JSMap.entries m).
Proof. apply Permutation_length, sort_Permutation. Qed.

(** X9.  The notes section shows the empty-state paragraph exactly when
    no note is held; otherwise it lists one item per held note, the
    React keys are the note numbers in strictly ascending order (so no
    key is repeated), and every held note has its item with the
    formatted name, the number sign and note number, and the velocity. *)
Theorem notesSection_items (a : App) :
  JSMap.wf (pressedNotes a) ->
  match notesSection a with
  | NotesEmpty _ => pressedNotes a = JSMap.empty
  | NotesList items =>
      pressedNotes a <> JSMap.empty
      /\ List.length items = List.length (JSMap.entries (pressedNotes a))
      /\ StronglySorted Z.lt (map key items)
      /\ (forall note velocity,
            JSMap.get (pressedNotes a) note = Some velocity ->
            In {| key := note;
                  note_name := midiNoteToName note;
                  note_midi := ("#" ++ Number_toString note)%string;
                  note_velocity :=
                    ("vel " ++ Number_toString velocity)%string |} items)
  end.
Proof.
  intros Hwf. unfold notesSection.
  set (m := pressedNotes a) in *.
  pose proof (pressedList_length m) as Hlen.
  destruct (Nat.eqb (List.length (pressedList m)) 0) eqn:E.
  - apply Nat.eqb_eq in E. rewrite E in Hlen.
    unfold JSMap.entries in Hlen. now destruct m.
  - apply Nat.eqb_neq in E. repeat split.
    + intros Hm. rewrite Hm in E. now apply E.
    + now rewrite length_map.
    + assert (Hs : StronglySorted note_lt (pressedList m)).
      { apply sorted_strict; [|apply sort_sorted].
        eapply Permutation_NoDup; [|exact Hwf].
        apply Permutation_map. symmetry. apply sort_Permutation. }
      clear E Hlen.
      induction Hs as [|[k v] l Hs IH Hall]; simpl; [constructor|].
      constructor; [exact IH|].
      rewrite map_map. apply Forall_map.
      eapply Forall_impl; [|exact Hall]. now intros [k' v'].
    + intros note velocity Hget.
      apply JSMapFacts.get_Some_In in Hget.
      change (In (noteItem (note, velocity)) (map noteItem (pressedList m))).
      apply in_map.
      eapply Permutation_in; [symmetry; apply sort_Permutation | exact Hget].
Qed.

Lemma notesSection_items_witness :
  notesSection (setPressedNotes (fun _ => [(64, 90); (60, 70)]) initial)
  = NotesList
      [ {| key := 60; note_name := "C4"; note_midi := "#60";
           note_velocity := "vel 70" |};
        {| key := 64; note_name := "E4"; note_midi := "#64";
           note_velocity := "vel 90" |} ]%string
  /\ StronglySorted Z.lt [60; 64].
Proof.
  pose proof (notesSection_items
                (setPressedNotes (fun _ => [(64, 90); (60, 70)]) initial))
    as H.
  assert (Hwf : JSMap.wf [(64, 90); (60, 70)])
    by (repeat constructor; simpl; intuition discriminate).
  specialize (H Hwf).
  split; [reflexivity|].
  exact (proj1 (proj2 (proj2 H))).
Defined.

(** X10.  The status line tells the states apart: it is never empty and
    two views whose status lines read the same are in the same status,
    whatever their input names. *)
Theorem statusBanner_identifies_status (a b : App) :
  statusBanner a <> ""%string
  /\ (statusBanner a = statusBanner b -> midiStatus a = midiStatus b).
Proof.
  unfold statusBanner, join.
  split.
  - destruct (midiStatus a); simpl; try discriminate.
    destruct (inputNames a); simpl; discriminate.
  - destruct (midiStatus a), (midiStatus b); simpl;
      try reflexivity;
      try destruct (inputNames a); try destruct (inputNames b);
      simpl; discriminate.
Qed.

Lemma statusBanner_identifies_status_witness :
  midiStatus (setInputNames ["устройств не найдено"%string]
                            (setMidiStatus ready initial))
  = midiStatus (setMidiStatus ready initial).
Proof.
  apply (statusBanner_identifies_status
           (setInputNames ["устройств не найдено"%string]
                          (setMidiStatus ready initial))
           (setMidiStatus ready initial)).
  reflexivity.
Defined.

(** * Further properties of the event loop *)

Lemma inputLabel_attach (input : MIDIInput.t) :
  inputLabel (MIDIInput.attach input) = inputLabel input.
Proof. reflexivity. Qed.

Lemma attach_carries_handler (ins : list MIDIInput.t) :
  Forall (fun i => MIDIInput.onmidimessage i = Some TheHandler)
         (map MIDIInput.attach ins).
Proof. apply Forall_map, Forall_forall. reflexivity. Qed.

Lemma labels_attach (ins : list MIDIInput.t) :
  map inputLabel (map MIDIInput.attach ins) = map inputLabel ins.
Proof. rewrite map_map. apply map_ext, inputLabel_attach. Qed.

Lemma attach_all_result (ins : list MIDIInput.t) :
  names (attach_all ins) = map inputLabel ins
  /\ visited (attach_all ins) = map MIDIInput.attach ins
  /\ assignments (attach_all ins) = List.length ins.
Proof. exact (attach_all_from ins no_visit). Qed.

Lemma onstatechange_result (ins : list MIDIInput.t) :
  names (onstatechange ins) = map inputLabel ins
  /\ visited (onstatechange ins) = map MIDIInput.attach ins.
Proof.
  destruct (onstatechange_from ins no_visit) as (Hn & Hv & _).
  split; [exact Hn | exact Hv].
Qed.

Lemma startup_synced (env : Env) : synced (startup env).
Proof.
  unfold startup, mountEffect, synced.
  destruct (navigator env) as [nav|]; [destruct (requestMIDIAccess nav)|];
    reflexivity.
Qed.

Lemma step_synced (env : Env) (a : App) (e : Event) :
  reachable_inv a -> synced a -> synced (step env a e).
Proof.
  intros Hinv Hsync.
  destruct e as [|ins|err|ins|port event]; simpl.
  - unfold connectOffered, connectMIDI.
    destruct (midiStatus a); try exact Hsync.
    destruct (navigator env) as [nav|]; [|exact Hsync].
    destruct (requestMIDIAccess nav); exact Hsync.
  - destruct (pending a); [|exact Hsync].
    destruct (attach_all_result ins) as (Hn & Hv & _).
    unfold synced, onFulfilled. simpl. rewrite Hn, Hv.
    split; [symmetry; apply labels_attach | apply attach_carries_handler].
  - destruct (pending a); exact Hsync.
  - destruct (access a) as [acc|] eqn:Ea; [|exact Hsync].
    destruct Hinv as (_ & _ & _ & Hsub).
    destruct (Hsub acc Ea) as [Hs _]. rewrite Hs.
    destruct (onstatechange_result ins) as (Hn & Hv).
    unfold synced, onStateChange. simpl. rewrite Hn, Hv.
    split; [symmetry; apply labels_attach | apply attach_carries_handler].
  - destruct (access a) as [acc|] eqn:Ea; [|exact Hsync].
    destruct (nth_error (inputs acc) port) as [input|]; [|exact Hsync].
    destruct (MIDIInput.lacks_handler input); [exact Hsync|].
    unfold synced in *. simpl. now rewrite Ea in *.
Qed.

Lemma run_synced (env : Env) (events : list Event) :
  forall a, reachable_inv a -> synced a ->
            reachable_inv (run env events a) /\ synced (run env events a).
Proof.
  unfold run.
  induction events as [|e events IH]; simpl; intros a Hi Hs; [now split|].
  apply IH; [now apply step_inv | now apply step_synced].
Qed.

(** X11.  When the pending request is granted the status becomes
    [ready], every input of the access object gets the handler (the
    loop assigns once per input and replaces whatever listener was
    there), the names are the labels of the inputs in enumeration
    order, the view subscribes to device changes, and no note is held
    yet. *)
Theorem access_granted
        (env : Env) (events : list Event) (ins : list MIDIInput.t) :
  pending (run env events (startup env)) = true ->
  let a' := step env (run env events (startup env)) (AccessGranted ins) in
  midiStatus a' = ready
  /\ pending a' = false
  /\ inputNames a' = map inputLabel ins
  /\ access a' = Some {| inputs := map MIDIInput.attach ins;
                         subscribed := true |}
  /\ assignments (attach_all ins) = List.length ins
  /\ pressedNotes a' = JSMap.empty.
Proof.
  intros Hp a'. subst a'.
  pose proof (run_inv env events _ (startup_inv env)) as Hinv.
  set (a := run env events (startup env)) in *.
  destruct Hinv as (Hpend & Hacc & _ & _).
  destruct (Hpend Hp) as [Hnone _].
  destruct (attach_all_result ins) as (Hn & Hv & Ha).
  simpl. rewrite Hp. unfold onFulfilled. simpl. rewrite Hn, Hv.
  repeat split; [exact Ha | exact (Hacc Hnone)].
Qed.

Lemma access_granted_witness :
  let env := {| navigator := Some {| requestMIDIAccess := true |} |} in
  let pads := {| MIDIInput.name := None;
                 MIDIInput.id := Some "in-2"%string;
                 MIDIInput.onmidimessage := Some (OtherListener 7) |} in
  let a' := run env [ClickConnect; AccessGranted [pads]] (startup env) in
  midiStatus a' = ready
  /\ inputNames a' = ["in-2"%string]
  /\ access a' = Some {| inputs := [MIDIInput.attach pads];
                         subscribed := true |}.
Proof.
  intros env pads a'.
  destruct (access_granted env [ClickConnect] [pads] eq_refl)
    as (Hst & _ & Hn & Hacc & _).
  split; [exact Hst|]. split; [exact Hn | exact Hacc].
Defined.

(** X12.  In every state the loop can reach, the names shown are the
    labels of the inputs the view holds and each of them carries the
    handler; so a message arriving on any of these inputs is handled,
    and it changes PressedNotes only. *)
Theorem listed_inputs_are_heard
        (env : Env) (events : list Event) (acc : MIDIAccess)
        (port : nat) (input : MIDIInput.t) (event : MIDIMessageEvent) :
  access (run env events (startup env)) = Some acc ->
  nth_error (inputs acc) port = Some input ->
  let a := run env events (startup env) in
  inputNames a = map inputLabel (inputs acc)
  /\ MIDIInput.onmidimessage input = Some TheHandler
  /\ step env a (MIDIMessage port event)
     = setPressedNotes (handleMIDIMessage event) a.
Proof.
  intros Hacc Hport a.
  destruct (run_synced env events _ (startup_inv env) (startup_synced env))
    as [_ Hsync].
  fold a in Hsync, Hacc. unfold synced in Hsync. rewrite Hacc in Hsync.
  destruct Hsync as [Hnames Hall].
  assert (Hh : MIDIInput.onmidimessage input = Some TheHandler).
  { rewrite Forall_forall in Hall. apply Hall.
    eapply nth_error_In. exact Hport. }
  split; [exact Hnames|]. split; [exact Hh|].
  simpl. rewrite Hacc, Hport.
  unfold MIDIInput.lacks_handler. now rewrite Hh.
Qed.

Lemma listed_inputs_are_heard_witness :
  let env := {| navigator := Some {| requestMIDIAccess := true |} |} in
  let keys := {| MIDIInput.name := Some "Keys"%string;
                 MIDIInput.id := Some "in-1"%string;
                 MIDIInput.onmidimessage := None |} in
  pressedNotes (run env [ClickConnect; AccessGranted [keys];
                         MIDIMessage 0 (message [0x90; 60; 100])]
                    (startup env))
  = [(60, 100)].
Proof.
  intros env keys.
  pose proof (listed_inputs_are_heard env [ClickConnect; AccessGranted [keys]]
                {| inputs := [MIDIInput.attach keys]; subscribed := true |}
                0 (MIDIInput.attach keys) (message [0x90; 60; 100])
                eq_refl eq_refl) as (_ & _ & H).
  change (run env [ClickConnect; AccessGranted [keys];
                   MIDIMessage 0 (message [0x90; 60; 100])] (startup env))
    with (step env (run env [ClickConnect; AccessGranted [keys]]
                        (startup env))
               (MIDIMessage 0 (message [0x90; 60; 100]))).
  rewrite H. reflexivity.
Defined.

Lemma append_empty_r (s : string) : (s ++ "")%string = s.
Proof. induction s as [|c s IH]; simpl; [reflexivity | now rewrite IH]. Qed.

(** X13.  Once connected, the status line always names the inputs the
    view currently holds, separated by a comma and a space, or says
    that no device was found when it holds none. *)
Theorem statusBanner_lists_inputs
        (env : Env) (events : list Event) (acc : MIDIAccess) :
  access (run env events (startup env)) = Some acc ->
  statusBanner (run env events (startup env))
  = match inputs acc with
    | [] => "Готово · устройств не найдено"%string
    | _ => ("Готово · " ++ join ", " (map inputLabel (inputs acc)))%string
    end.
Proof.
  intros Hacc.
  destruct (run_synced env events _ (startup_inv env) (startup_synced env))
    as [Hinv Hsync].
  set (a := run env events (startup env)) in *.
  destruct Hinv as (_ & _ & _ & Hsub).
  destruct (Hsub acc Hacc) as [_ Hready].
  unfold synced in Hsync. rewrite Hacc in Hsync. destruct Hsync as [Hn _].
  unfold statusBanner. rewrite Hready, Hn. simpl.
  rewrite length_map. destruct (inputs acc); simpl.
  - reflexivity.
  - now rewrite !append_empty_r.
Qed.

Lemma statusBanner_lists_inputs_witness :
  let env := {| navigator := Some {| requestMIDIAccess := true |} |} in
  let keys := {| MIDIInput.name := Some "Keys"%string;
                 MIDIInput.id := Some "in-1"%string;
                 MIDIInput.onmidimessage := None |} in
  let pads := {| MIDIInput.name := None;
                 MIDIInput.id := Some "in-2"%string;
                 MIDIInput.onmidimessage := None |} in
  statusBanner (run env [ClickConnect; AccessGranted [keys];
                         DeviceListChanged [keys; pads]] (startup env))
  = "Готово · Keys, in-2"%string.
Proof.
  intros env keys pads.
  apply (statusBanner_lists_inputs env
           [ClickConnect; AccessGranted [keys]; DeviceListChanged [keys; pads]]
           {| inputs := [MIDIInput.attach keys; MIDIInput.attach pads];
              subscribed := true |}).
  reflexivity.
Defined.

Lemma step_decided (env : Env) (a : App) (e : Event) :
  reachable_inv a -> undecided (midiStatus a) = false ->
  midiStatus (step env a e) = midiStatus a.
Proof.
  intros (Hpend & _ & _ & _) Hdec.
  assert (Hnp : pending a = false).
  { destruct (pending a) eqn:Ep; [|reflexivity].
    destruct (Hpend eq_refl) as [_ Hreq]. rewrite Hreq in Hdec.
    discriminate. }
  destruct e as [|ins|err|ins|port event]; simpl; rewrite ?Hnp;
    try reflexivity.
  - unfold connectOffered.
    destruct (midiStatus a) eqn:Est; try exact Est; discriminate Hdec.
  - destruct (access a) as [acc|]; [|reflexivity].
    destruct (subscribed acc); reflexivity.
  - destruct (access a) as [acc|]; [|reflexivity].
    destruct (nth_error (inputs acc) port) as [input|]; [|reflexivity].
    destruct (MIDIInput.lacks_handler input); reflexivity.
Qed.

(** X14.  Once the status is [ready], [unsupported], [denied] or
    [error] it never changes again: there is no retry after a failure
    and no way back from [ready], whatever happens to the devices. *)
Theorem decided_status_is_permanent
        (env : Env) (events later : list Event) :
  undecided (midiStatus (run env events (startup env))) = false ->
  midiStatus (run env later (run env events (startup env)))
  = midiStatus (run env events (startup env)).
Proof.
  pose proof (run_inv env events _ (startup_inv env)) as Hinv.
  generalize dependent (run env events (startup env)).
  unfold run.
  induction later as [|e later IH]; simpl; intros a Hinv Hdec;
    [reflexivity|].
  pose proof (step_decided env a e Hinv Hdec) as Hstep.
  rewrite IH; [exact Hstep | now apply step_inv | now rewrite Hstep].
Qed.

Lemma decided_status_is_permanent_witness :
  let env := {| navigator := Some {| requestMIDIAccess := true |} |} in
  midiStatus
    (run env [DeviceListChanged []; ClickConnect;
              AccessRejected {| JSError.name := "AbortError" |}]
         (run env [ClickConnect; AccessGranted []] (startup env)))
  = ready.
Proof.
  intros env.
  apply (decided_status_is_permanent env [ClickConnect; AccessGranted []]
           [DeviceListChanged []; ClickConnect;
            AccessRejected {| JSError.name := "AbortError" |}]).
  reflexivity.
Defined.

(** X15.  Notes are held only while the view is connected: in every
    state the loop can reach with a non-empty PressedNotes the status is
    [ready], an access object is held and no request is pending. *)
Theorem held_notes_imply_ready (env : Env) (events : list Event) :
  pressedNotes (run env events (startup env)) <> JSMap.empty ->
  midiStatus (run env events (startup env)) = ready
  /\ access (run env events (startup env)) <> None
  /\ pending (run env events (startup env)) = false.
Proof.
  pose proof (run_inv env events _ (startup_inv env)) as Hinv.
  set (a := run env events (startup env)) in *.
  destruct Hinv as (Hpend & Hacc & _ & Hsub).
  intros Hheld.
  destruct (access a) as [acc|] eqn:Ea.
  - destruct (Hsub acc eq_refl) as [_ Hready].
    repeat split; [exact Hready | discriminate |].
    destruct (pending a) eqn:Ep; [|reflexivity].
    destruct (Hpend eq_refl) as [Hnone _]. discriminate.
  - exfalso. apply Hheld. now apply Hacc.
Qed.

Lemma held_notes_imply_ready_witness :
  let env := {| navigator := Some {| requestMIDIAccess := true |} |} in
  let keys := {| MIDIInput.name := Some "Keys"%string;
                 MIDIInput.id := Some "in-1"%string;
                 MIDIInput.onmidimessage := None |} in
  midiStatus (run env [ClickConnect; AccessGranted [keys];
                       MIDIMessage 0 (message [0x90; 60; 100]);
                       DeviceListChanged []] (startup env))
  = ready.
Proof.
  intros env keys.
  apply (held_notes_imply_ready env
           [ClickConnect; AccessGranted [keys];
            MIDIMessage 0 (message [0x90; 60; 100]); DeviceListChanged []]).
  discriminate.
Defined.

(** X16.  Where [navigator] is not declared the mount effect does
    nothing and [connectMIDI], which reads it without a guard, throws:
    the view stays in its initial state, status [idle] and the connect
    button offered, whatever events follow. *)
Theorem without_navigator_stays_idle (env : Env) :
  navigator env = None ->
  (forall a, exists e, connectMIDI env a = Throw e)
  /\ (forall events, run env events (startup env) = initial)
  /\ connectOffered initial = true.
Proof.
  intros Hnav. split; [|split; [|reflexivity]].
  - intros a. unfold connectMIDI. rewrite Hnav. eexists. reflexivity.
  - intros events.
    assert (Hstart : startup env = initial).
    { unfold startup, mountEffect. now rewrite Hnav. }
    rewrite Hstart. unfold run.
    induction events as [|e events IH]; simpl; [reflexivity|].
    replace (step env initial e) with initial; [exact IH|].
    destruct e; simpl; try reflexivity.
    unfold connectMIDI. now rewrite Hnav.
Qed.

Lemma without_navigator_stays_idle_witness :
  run {| navigator := None |}
      [ClickConnect; AccessGranted []; MIDIMessage 0 (message [0x90; 60; 1])]
      (startup {| navigator := None |})
  = initial.
Proof.
  apply (without_navigator_stays_idle {| navigator := None |} eq_refl).
Defined.

Lemma step_never_idle (env : Env) (a : App) (e : Event) :
  midiStatus a <> idle -> midiStatus (step env a e) <> idle.
Proof.
  intros Hni.
  destruct e as [|ins|err|ins|port event]; simpl.
  - unfold connectOffered.
    destruct (midiStatus a) eqn:Est; try (rewrite Est; discriminate).
    now contradiction Hni.
  - destruct (pending a); [discriminate | exact Hni].
  - destruct (pending a); [|exact Hni].
    simpl. destruct (String.eqb _ _); discriminate.
  - destruct (access a) as [acc|]; [|exact Hni].
    destruct (subscribed acc); exact Hni.
  - destruct (access a) as [acc|]; [|exact Hni].
    destruct (nth_error (inputs acc) port) as [input|]; [|exact Hni].
    destruct (MIDIInput.lacks_handler input); exact Hni.
Qed.

Lemma run_never_idle (env : Env) (events : list Event) :
  forall a, midiStatus a <> idle -> midiStatus (run env events a) <> idle.
Proof.
  unfold run.
  induction events as [|e events IH]; simpl; intros a Ha; [exact Ha|].
  apply IH. now apply step_never_idle.
Qed.

(** Away from [idle] no turn of the loop makes a request pending. *)
Lemma no_request_once_not_idle (env : Env) (events : list Event) :
  forall a, reachable_inv a -> midiStatus a <> idle ->
            requests_started env events a = 0%nat.
Proof.
  induction events as [|e events IH]; simpl; intros a Hinv Hni;
    [reflexivity|].
  rewrite (IH _ (step_inv env a e Hinv) (step_never_idle env a e Hni)).
  replace (negb (pending a) && pending (step env a e)) with false;
    [reflexivity|].
  symmetry. destruct (pending a) eqn:Ep; [reflexivity|]. simpl.
  destruct e as [|ins|err|ins|port event]; simpl; rewrite ?Ep;
    try (reflexivity || exact Ep).
  - unfold connectOffered.
    destruct (midiStatus a) eqn:Est;
      first [reflexivity | exact Ep | now contradiction Hni].
  - destruct (access a) as [acc|]; [|reflexivity || exact Ep].
    destruct (subscribed acc); reflexivity || exact Ep.
  - destruct (access a) as [acc|]; [|reflexivity || exact Ep].
    destruct (nth_error (inputs acc) port) as [input|];
      [|reflexivity || exact Ep].
    destruct (MIDIInput.lacks_handler input); reflexivity || exact Ep.
Qed.

Lemma requests_started_le_1 (env : Env) (events : list Event) :
  forall a, reachable_inv a -> (requests_started env events a <= 1)%nat.
Proof.
  induction events as [|e events IH]; simpl; intros a Hinv; [lia|].
  assert (Hidle : midiStatus a = idle \/ midiStatus a <> idle)
    by (destruct (midiStatus a); auto; right; discriminate).
  destruct Hidle as [Hidle | Hni].
  - assert (Hnext : midiStatus (step env a e) = idle
                    \/ midiStatus (step env a e) <> idle)
      by (destruct (midiStatus (step env a e)); auto; right; discriminate).
    destruct Hnext as [Hstill | Hleft].
    + (* still idle: nothing became pending *)
      pose proof (step_inv env a e Hinv) as Hinv'.
      assert (Hp' : pending (step env a e) = false).
      { destruct Hinv' as (_ & _ & Ha' & _). now destruct (Ha' Hstill). }
      rewrite Hp', andb_false_r. simpl.
      apply IH. exact Hinv'.
    + rewrite (no_request_once_not_idle env events _
                 (step_inv env a e Hinv) Hleft).
      destruct (negb (pending a) && pending (step env a e)); lia.
  - pose proof (no_request_once_not_idle env (e :: events) a Hinv Hni) as H0.
    simpl in H0. rewrite H0. lia.
Qed.

(** X17.  The connect button starts at most one access request: along
    any sequence of events from startup a request becomes pending at
    most once, and once the status has left [idle] the button is never
    rendered again. *)
Theorem at_most_one_request (env : Env) (events : list Event) :
  (requests_started env events (startup env) <= 1)%nat
  /\ (forall later,
        midiStatus (run env events (startup env)) <> idle ->
        connectOffered (run env later (run env events (startup env)))
        = false).
Proof.
  split.
  - apply requests_started_le_1, startup_inv.
  - intros later Hni.
    pose proof (run_never_idle env later _ Hni) as H.
    unfold connectOffered.
    destruct (midiStatus (run env later (run env events (startup env))));
      try reflexivity.
    now contradiction H.
Qed.

Lemma at_most_one_request_witness :
  let env := {| navigator := Some {| requestMIDIAccess := true |} |} in
  requests_started env [ClickConnect; ClickConnect; AccessGranted [];
                        ClickConnect] (startup env) = 1%nat
  /\ (requests_started env [ClickConnect; ClickConnect; AccessGranted [];
                            ClickConnect] (startup env) <= 1)%nat
  /\ connectOffered
       (run env [ClickConnect]
            (run env [ClickConnect; AccessGranted []] (startup env)))
     = false.
Proof.
  intros env. split; [reflexivity|]. split.
  - apply (proj1 (at_most_one_request env
                    [ClickConnect; ClickConnect; AccessGranted [];
                     ClickConnect])).
  - apply (proj2 (at_most_one_request env [ClickConnect; AccessGranted []])
                 [ClickConnect]).
    discriminate.
Defined.
